(** * DocSync: the resilient documentation parser and the document caches

    A shallow embedding of [src/services/gemini.ts] (the parse pipeline of
    [generateDocumentation], [translateDocumentation], [verifyCodeExample])
    and of the cache handlers of the [App] component ([processFile],
    [handleFileSelect], [handleVerify], [handleTranslate], [handleApplyFix]),
    followed by the properties of the specification stated over it. *)

From Stdlib Require Import ZArith NArith Ascii String DecimalString.
From stdpp Require Import gmap list fin_maps strings.

Set Warnings "-register-all".
Local Open Scope N_scope.

(** ** JavaScript strings

    A JavaScript string is a sequence of UTF-16 code units; a code unit is
    kept as its number. *)
Module JS.

Abbreviation jsstring := (list N).

(** The code units of an ASCII literal. *)
Definition lit (s : string) : jsstring :=
  map N_of_ascii (list_ascii_of_string s).

(** The same, for source literals that contain double quotes: the literal is
    written with an apostrophe wherever the source text has a double quote
    (none of the literals used below contains an apostrophe of its own). *)
Definition jq (s : string) : jsstring :=
  map (fun c => if c =? 39 then 34 else c) (lit s).

Definition str_eqb (a b : jsstring) : bool :=
  bool_decide (a = b).

(** WhiteSpace and LineTerminator code units: what [\s] matches and what
    [String.prototype.trim] strips. *)
Definition is_space (c : N) : bool :=
  ((9 <=? c) && (c <=? 13)) || (c =? 32) || (c =? 160) || (c =? 5760)
  || ((8192 <=? c) && (c <=? 8202)) || (c =? 8232) || (c =? 8233)
  || (c =? 8239) || (c =? 8287) || (c =? 12288) || (c =? 65279).

(** LineTerminator code units: what [.] does not match. *)
Definition is_line_terminator (c : N) : bool :=
  (c =? 10) || (c =? 13) || (c =? 8232) || (c =? 8233).

Fixpoint drop_space (s : jsstring) : jsstring :=
  match s with
  | c :: s' => if is_space c then drop_space s' else s
  | [] => []
  end.

(** [s.trim()] *)
Definition trim (s : jsstring) : jsstring :=
  rev (drop_space (rev (drop_space s))).

(** [s.endsWith(t)] and [s.startsWith(t)] *)
Fixpoint startsWith (s t : jsstring) : bool :=
  match t, s with
  | [], _ => true
  | c :: t', d :: s' => (c =? d) && startsWith s' t'
  | _ :: _, [] => false
  end.

Definition endsWith (s t : jsstring) : bool :=
  startsWith (rev s) (rev t).

(** [s.slice(0, n)] for a non-negative [n] *)
Definition slice0 (n : N) (s : jsstring) : jsstring := take (N.to_nat n) s.

(** [s.length] *)
Definition len (s : jsstring) : N := N.of_nat (length s).

(** [s.slice(0, -1)] *)
Definition slice0_minus1 (s : jsstring) : jsstring :=
  take (length s - 1) s.

(** [(s.match(/c/g) || []).length] for a one-character pattern *)
Definition count_char (c : N) (s : jsstring) : nat :=
  length (filter (fun d => d = c) s).

(** [c.repeat(n)] for a one-character string *)
Definition repeat_char (c : N) (n : nat) : jsstring := replicate n c.

(** [s.indexOf(c)] for a one-character string; [None] stands for -1. *)
Fixpoint indexOf (c : N) (s : jsstring) : option nat :=
  match s with
  | [] => None
  | d :: s' => if d =? c then Some 0%nat else S <$> indexOf c s'
  end.

(** [s.replace(/pat/g, rep)] for a literal, non-empty pattern: matches are
    found left to right and do not overlap. [skip] counts the code units of
    the current match that are still to be passed over. *)
Fixpoint replace_all_from (pat rep : jsstring) (skip : nat) (s : jsstring)
  : jsstring :=
  match s with
  | [] => []
  | c :: s' =>
      match skip with
      | S n => replace_all_from pat rep n s'
      | O =>
          if startsWith s pat
          then rep ++ replace_all_from pat rep (length pat - 1) s'
          else c :: replace_all_from pat rep 0 s'
      end
  end.

Definition replace_all (pat rep : jsstring) (s : jsstring) : jsstring :=
  replace_all_from pat rep 0 s.

(** [s.split('\n')]-style split on a one-character separator. *)
Fixpoint split_char_from (c : N) (cur : jsstring) (s : jsstring)
  : list jsstring :=
  match s with
  | [] => [rev cur]
  | d :: s' =>
      if d =? c then rev cur :: split_char_from c [] s'
      else split_char_from c (d :: cur) s'
  end.

Definition split_char (c : N) (s : jsstring) : list jsstring :=
  split_char_from c [] s.

End JS.
Export JS.

(** ** Regular expressions

    The patterns of [gemini.ts] are run by a backtracking matcher written
    in the continuation style of the ECMAScript specification: alternatives
    are tried left to right, stars are greedy, an iteration of a star that
    consumes nothing is rejected. One capture group is supported (the
    patterns have at most one, and never below a star). *)
Module Regex.

Inductive regex : Type :=
| Eps
| Chr (c : N)
| Cls (p : N -> bool)
| Seq (r1 r2 : regex)
| Alt (r1 r2 : regex)
| Star (r : regex)
| Grp (r : regex).

(** A match: the input left after it, and the text of group 1. *)
Definition result : Type := jsstring * option jsstring.
Definition cont : Type := jsstring -> option jsstring -> option result.

(** The iterations of a greedy star over [step], the matcher of its body.
    Every iteration consumes input, so a fuel of the length of the input is
    never used up. *)
Fixpoint star_loop (step : jsstring -> option jsstring -> cont -> option result)
  (fuel : nat) (s : jsstring) (cap : option jsstring) (k : cont)
  : option result :=
  match fuel with
  | O => k s cap
  | S fuel' =>
      match step s cap (fun s' cap' =>
                          if (length s' <? length s)%nat
                          then star_loop step fuel' s' cap' k
                          else None) with
      | Some r => Some r
      | None => k s cap
      end
  end.

Fixpoint rmatch (r : regex) (s : jsstring) (cap : option jsstring) (k : cont)
  : option result :=
  match r with
  | Eps => k s cap
  | Chr c =>
      match s with
      | d :: s' => if d =? c then k s' cap else None
      | [] => None
      end
  | Cls p =>
      match s with
      | d :: s' => if p d then k s' cap else None
      | [] => None
      end
  | Seq r1 r2 => rmatch r1 s cap (fun s1 cap1 => rmatch r2 s1 cap1 k)
  | Alt r1 r2 =>
      match rmatch r1 s cap k with
      | Some x => Some x
      | None => rmatch r2 s cap k
      end
  | Star r1 => star_loop (rmatch r1) (length s) s cap k
  | Grp r1 =>
      rmatch r1 s cap
        (fun s1 _ => k s1 (Some (take (length s - length s1) s)))
  end.

(** The match of [r] anchored at the start of [s], if any. *)
Definition match_here (r : regex) (s : jsstring) : option result :=
  rmatch r s None (fun rest cap => Some (rest, cap)).

(** A literal string as a pattern. *)
Fixpoint Lit (s : jsstring) : regex :=
  match s with
  | [] => Eps
  | c :: s' => Seq (Chr c) (Lit s')
  end.

(** [s.match(r)] for a pattern without the [g] flag: the leftmost match.
    The result holds the matched text ([m[0]]) and group 1 ([m[1]]). *)
Fixpoint exec (r : regex) (s : jsstring)
  : option (jsstring * option jsstring) :=
  match match_here r s with
  | Some (rest, cap) => Some (take (length s - length rest) s, cap)
  | None =>
      match s with
      | [] => None
      | _ :: s' => exec r s'
      end
  end.

(** [s.split(r)] for a pattern without capture groups, following
    [RegExp.prototype[Symbol.split]]: [cur] is the piece being collected
    (reversed), [skip] the code units of the current separator still to be
    passed over. *)
Fixpoint split_from (r : regex) (skip : nat) (cur : jsstring) (s : jsstring)
  : list jsstring :=
  match s with
  | [] => [rev cur]
  | c :: s' =>
      match skip with
      | S n => split_from r n cur s'
      | O =>
          match match_here r s with
          | Some (rest, _) =>
              match (length s - length rest)%nat with
              | O =>
                  match cur with
                  | [] => split_from r 0 [c] s'
                  | _ => rev cur :: split_from r 0 [c] s'
                  end
              | S n => rev cur :: split_from r n [] s'
              end
          | None => split_from r 0 (c :: cur) s'
          end
      end
  end.

Definition split (r : regex) (s : jsstring) : list jsstring :=
  match s with
  | [] => match match_here r [] with Some _ => [] | None => [[]] end
  | _ => split_from r 0 [] s
  end.

(** Patterns every match of which sets group 1. *)
Fixpoint sets_group (r : regex) : bool :=
  match r with
  | Grp _ => true
  | Seq r1 r2 => sets_group r1 || sets_group r2
  | Alt r1 r2 => sets_group r1 && sets_group r2
  | _ => false
  end.

End Regex.

(** ** JavaScript values

    What [JSON.parse] returns and what the documents of the program are made
    of: the source types them [any]. An object is the list of its own
    properties in creation order. *)
Module Value.

(** A JSON number, kept exactly: [(-1)^neg * mant * 10^exp10]. *)
Record number : Type := Number { neg : bool; mant : N; exp10 : Z }.

Inductive value : Type :=
| VUndefined
| VNull
| VBool (b : bool)
| VNum (n : number)
| VStr (s : jsstring)
| VArr (l : list value)
| VObj (ps : list (jsstring * value)).

Definition props : Type := list (jsstring * value).

(** The Number value of a JSON number is the nearest double; it is zero when
    the mantissa is zero or when the exact value is at most [2^-1075], half
    of the smallest positive double. *)
Definition number_is_zero (n : number) : bool :=
  (mant n =? 0)
  || ((exp10 n <? 0)%Z
      && (Z.of_N (mant n) * 2 ^ 1075 <=? 10 ^ (- exp10 n))%Z).

(** ToBoolean *)
Definition truthy (v : value) : bool :=
  match v with
  | VUndefined | VNull => false
  | VBool b => b
  | VNum n => negb (number_is_zero n)
  | VStr s => match s with [] => false | _ => true end
  | VArr _ | VObj _ => true
  end.

(** Own property lookup; an absent property reads as [undefined]. *)
Fixpoint lookup_prop (k : jsstring) (ps : props) : value :=
  match ps with
  | [] => VUndefined
  | (k', v) :: ps' => if str_eqb k' k then v else lookup_prop k ps'
  end.

(** Defining a property: an existing one keeps its place, a new one goes
    last. *)
Fixpoint set_prop (k : jsstring) (v : value) (ps : props) : props :=
  match ps with
  | [] => [(k, v)]
  | (k', v') :: ps' =>
      if str_eqb k' k then (k, v) :: ps' else (k', v') :: set_prop k v ps'
  end.

(** An object literal [{ k1: v1, ..., kn: vn }]. *)
Definition object (kvs : list (string * value)) : value :=
  VObj (fold_left (fun ps kv => set_prop (lit (fst kv)) (snd kv) ps) kvs []).

(** [v.k] for the property names the program reads ([summary], [sections],
    [title], [content], [codeExample], [language], [sourceSha],
    [verification], [status], [logs], [fixedCode]): none of them is an index
    or [length], and none is defined on a prototype, so on a string, number,
    boolean or array they read as [undefined]. On [null] and [undefined] the
    access throws a TypeError: [None]. *)
Definition get (v : value) (k : string) : option value :=
  match v with
  | VUndefined | VNull => None
  | VObj ps => Some (lookup_prop (lit k) ps)
  | _ => Some VUndefined
  end.

(** [v?.k] *)
Definition get_opt (v : value) (k : string) : value :=
  default VUndefined (get v k).

(** The decimal digits of an array index. *)
Definition index_key (i : nat) : jsstring :=
  lit (NilEmpty.string_of_uint (Nat.to_uint i)).

(** [v[i]] for a value that is neither [null] nor [undefined]. *)
Definition get_index (v : value) (i : nat) : value :=
  match v with
  | VArr l => default VUndefined (l !! i)
  | VStr s => match s !! i with Some c => VStr [c] | None => VUndefined end
  | VObj ps => lookup_prop (index_key i) ps
  | _ => VUndefined
  end.

(** The own enumerable properties copied by a spread [{...v}]. *)
Definition own_props (v : value) : props :=
  match v with
  | VObj ps => ps
  | VArr l => imap (fun i x => (index_key i, x)) l
  | VStr s => imap (fun i c => (index_key i, VStr [c])) s
  | _ => []
  end.

(** [{...v, k1: v1, ..., kn: vn}] *)
Definition spread_with (v : value) (kvs : list (string * value)) : value :=
  VObj (fold_left (fun ps kv => set_prop (lit (fst kv)) (snd kv) ps) kvs
          (own_props v)).

(** [Array.isArray(v)] *)
Definition isArray (v : value) : bool :=
  match v with VArr _ => true | _ => false end.

End Value.
Export Value.

(** ** JSON.parse

    The JSON grammar of ECMA-404, as [JSON.parse] accepts it: a lexer, then
    a parser that keeps the open arrays and objects on a stack. [None] is
    the SyntaxError. *)
Module JSON.

Inductive token : Type :=
| TLBrace | TRBrace | TLBrack | TRBrack | TComma | TColon
| TStr (s : jsstring) | TNum (n : number) | TTrue | TFalse | TNull.

Definition is_json_ws (c : N) : bool :=
  (c =? 32) || (c =? 9) || (c =? 10) || (c =? 13).

Definition is_digit (c : N) : bool := (48 <=? c) && (c <=? 57).

Definition hex_digit (c : N) : option N :=
  if (48 <=? c) && (c <=? 57) then Some (c - 48)
  else if (65 <=? c) && (c <=? 70) then Some (c - 55)
  else if (97 <=? c) && (c <=? 102) then Some (c - 87)
  else None.

(** The code unit of a one-character escape [\c]. *)
Definition simple_escape (c : N) : option N :=
  if c =? 34 then Some 34          (* quotation mark *)
  else if c =? 92 then Some 92     (* reverse solidus *)
  else if c =? 47 then Some 47     (* solidus *)
  else if c =? 98 then Some 8      (* b: backspace *)
  else if c =? 102 then Some 12    (* f: form feed *)
  else if c =? 110 then Some 10    (* n: line feed *)
  else if c =? 114 then Some 13    (* r: carriage return *)
  else if c =? 116 then Some 9     (* t: tab *)
  else None.

(** Where the lexer stands inside a number. *)
Inductive numphase : Type :=
| NSign      (* after [-]: a digit must follow *)
| NZero      (* after the single integer digit [0] *)
| NInt       (* inside the integer digits *)
| NDot       (* after [.]: a digit must follow *)
| NFrac      (* inside the fraction digits *)
| NE         (* after [e]: a sign or a digit must follow *)
| NESign     (* after the sign of the exponent: a digit must follow *)
| NExp.      (* inside the exponent digits *)

Record numacc : Type := NumAcc {
  a_neg : bool; a_mant : N; a_frac : Z; a_eneg : bool; a_exp : N }.

Definition finish (a : numacc) : number :=
  {| neg := a_neg a; mant := a_mant a;
     exp10 := ((if a_eneg a then - Z.of_N (a_exp a) else Z.of_N (a_exp a))
               - a_frac a)%Z |}.

Definition push_int (a : numacc) (c : N) : numacc :=
  NumAcc (a_neg a) (10 * a_mant a + (c - 48)) (a_frac a) (a_eneg a) (a_exp a).
Definition push_frac (a : numacc) (c : N) : numacc :=
  NumAcc (a_neg a) (10 * a_mant a + (c - 48)) (a_frac a + 1) (a_eneg a)
    (a_exp a).
Definition push_exp (a : numacc) (c : N) : numacc :=
  NumAcc (a_neg a) (a_mant a) (a_frac a) (a_eneg a) (10 * a_exp a + (c - 48)).
Definition set_eneg (a : numacc) : numacc :=
  NumAcc (a_neg a) (a_mant a) (a_frac a) true (a_exp a).

(** One code unit of a number: the next phase, or [inl true] when the number
    ended before this code unit, or [inl false] when the number is
    malformed. *)
Definition num_step (ph : numphase) (a : numacc) (c : N)
  : bool + (numphase * numacc) :=
  let is_e := (c =? 101) || (c =? 69) in
  match ph with
  | NSign =>
      if c =? 48 then inr (NZero, a)
      else if is_digit c then inr (NInt, push_int a c) else inl false
  | NZero =>
      if c =? 46 then inr (NDot, a)
      else if is_e then inr (NE, a) else inl true
  | NInt =>
      if is_digit c then inr (NInt, push_int a c)
      else if c =? 46 then inr (NDot, a)
      else if is_e then inr (NE, a) else inl true
  | NDot => if is_digit c then inr (NFrac, push_frac a c) else inl false
  | NFrac =>
      if is_digit c then inr (NFrac, push_frac a c)
      else if is_e then inr (NE, a) else inl true
  | NE =>
      if c =? 43 then inr (NESign, a)
      else if c =? 45 then inr (NESign, set_eneg a)
      else if is_digit c then inr (NExp, push_exp a c) else inl false
  | NESign => if is_digit c then inr (NExp, push_exp a c) else inl false
  | NExp => if is_digit c then inr (NExp, push_exp a c) else inl true
  end.

(** Whether a number may end in this phase. *)
Definition num_final (ph : numphase) : bool :=
  match ph with
  | NZero | NInt | NFrac | NExp => true
  | _ => false
  end.

Fixpoint lex (s : jsstring) : option (list token) :=
  match s with
  | [] => Some []
  | c :: s' =>
      if is_json_ws c then lex s'
      else if c =? 123 then cons TLBrace <$> lex s'
      else if c =? 125 then cons TRBrace <$> lex s'
      else if c =? 91 then cons TLBrack <$> lex s'
      else if c =? 93 then cons TRBrack <$> lex s'
      else if c =? 44 then cons TComma <$> lex s'
      else if c =? 58 then cons TColon <$> lex s'
      else if c =? 34 then
        (fix str (acc : jsstring) (r : jsstring) {struct r}
           : option (list token) :=
           match r with
           | [] => None
           | d :: r' =>
               if d =? 34 then cons (TStr (rev acc)) <$> lex r'
               else if d =? 92 then
                 match r' with
                 | [] => None
                 | e :: r'' =>
                     if e =? 117 then
                       match r'' with
                       | h1 :: h2 :: h3 :: h4 :: r4 =>
                           match hex_digit h1, hex_digit h2,
                                 hex_digit h3, hex_digit h4 with
                           | Some x1, Some x2, Some x3, Some x4 =>
                               str (((x1 * 16 + x2) * 16 + x3) * 16 + x4
                                    :: acc) r4
                           | _, _, _, _ => None
                           end
                       | _ => None
                       end
                     else
                       match simple_escape e with
                       | Some x => str (x :: acc) r''
                       | None => None
                       end
                 end
               else if d <? 32 then None
               else str (d :: acc) r'
           end) [] s'
      else if (c =? 45) || is_digit c then
        (fix num (ph : numphase) (a : numacc) (r : jsstring) {struct r}
           : option (list token) :=
           match r with
           | [] =>
               if num_final ph then Some [TNum (finish a)] else None
           | d :: r' =>
               match num_step ph a d with
               | inr (ph', a') => num ph' a' r'
               | inl true =>
                   (* the number ended before [d]; in a JSON text only
                      white space, a comma or a closing bracket can follow
                      a number *)
                   cons (TNum (finish a)) <$>
                     (if is_json_ws d then lex r'
                      else if d =? 125 then cons TRBrace <$> lex r'
                      else if d =? 93 then cons TRBrack <$> lex r'
                      else if d =? 44 then cons TComma <$> lex r'
                      else None)
               | inl false => None
               end
           end)
          (if c =? 45 then NSign else if c =? 48 then NZero else NInt)
          (if c =? 45 then NumAcc true 0 0 false 0
           else NumAcc false (c - 48) 0 false 0)
          s'
      else
        match s with
        | 116 :: 114 :: 117 :: 101 :: r => cons TTrue <$> lex r
        | 102 :: 97 :: 108 :: 115 :: 101 :: r => cons TFalse <$> lex r
        | 110 :: 117 :: 108 :: 108 :: r => cons TNull <$> lex r
        | _ => None
        end
  end.

(** An open array with the elements read so far, or an open object with
    the members read so far and the key whose value is being read. *)
Inductive frame : Type :=
| FArr (elems : list value)
| FObj (members : props) (key : jsstring).

Inductive pstate : Type :=
| PValue (stk : list frame)               (* a value must follow *)
| PFirstElem (stk : list frame)           (* after [[]: a value or []] *)
| PFirstKey (stk : list frame)            (* after [{]: a key or [}] *)
| PKey (ms : props) (stk : list frame)    (* after [,] in an object *)
| PColon (ms : props) (k : jsstring) (stk : list frame)
| PAfterElem (elems : list value) (stk : list frame)   (* [,] or []] *)
| PAfterMember (ms : props) (stk : list frame)         (* [,] or [}] *)
| PDone (v : value).

(** A complete value goes to the innermost open array or object. A member
    whose key is already present replaces it: the last duplicate wins. *)
Definition reduce (v : value) (stk : list frame) : pstate :=
  match stk with
  | [] => PDone v
  | FArr elems :: stk' => PAfterElem (elems ++ [v]) stk'
  | FObj ms k :: stk' => PAfterMember (set_prop k v ms) stk'
  end.

Definition start_value (t : token) (stk : list frame) : option pstate :=
  match t with
  | TLBrace => Some (PFirstKey stk)
  | TLBrack => Some (PFirstElem stk)
  | TStr s => Some (reduce (VStr s) stk)
  | TNum n => Some (reduce (VNum n) stk)
  | TTrue => Some (reduce (VBool true) stk)
  | TFalse => Some (reduce (VBool false) stk)
  | TNull => Some (reduce VNull stk)
  | TRBrace | TRBrack | TComma | TColon => None
  end.

Definition pstep (st : pstate) (t : token) : option pstate :=
  match st with
  | PValue stk => start_value t stk
  | PFirstElem stk =>
      match t with
      | TRBrack => Some (reduce (VArr []) stk)
      | _ => start_value t (FArr [] :: stk)
      end
  | PFirstKey stk =>
      match t with
      | TRBrace => Some (reduce (VObj []) stk)
      | TStr k => Some (PColon [] k stk)
      | _ => None
      end
  | PKey ms stk =>
      match t with
      | TStr k => Some (PColon ms k stk)
      | _ => None
      end
  | PColon ms k stk =>
      match t with
      | TColon => Some (PValue (FObj ms k :: stk))
      | _ => None
      end
  | PAfterElem elems stk =>
      match t with
      | TComma => Some (PValue (FArr elems :: stk))
      | TRBrack => Some (reduce (VArr elems) stk)
      | _ => None
      end
  | PAfterMember ms stk =>
      match t with
      | TComma => Some (PKey ms stk)
      | TRBrace => Some (reduce (VObj ms) stk)
      | _ => None
      end
  | PDone _ => None
  end.

Fixpoint prun (st : pstate) (ts : list token) : option value :=
  match ts with
  | [] => match st with PDone v => Some v | _ => None end
  | t :: ts' =>
      match pstep st t with
      | Some st' => prun st' ts'
      | None => None
      end
  end.

(** [JSON.parse(text)]; [None] when it throws. *)
Definition parse (text : jsstring) : option value :=
  match lex text with
  | Some ts => prun (PValue []) ts
  | None => None
  end.

End JSON.
(** ** services/gemini.ts *)
Module Gemini.
Import Regex.

(** [a || b] *)
Definition or_else (a b : value) : value := if truthy a then a else b.

(** [v === s] for a string [s] *)
Definition is_string (v : value) (s : jsstring) : bool :=
  match v with
  | VStr t => str_eqb t s
  | _ => false
  end.

(** [/\{[\s\S]*\}/] *)
Definition re_object : regex :=
  Seq (Chr 123) (Seq (Star (Cls (fun _ => true))) (Chr 125)).

(** [\s*] *)
Definition re_spaces : regex := Star (Cls is_space).

(** The body of a quoted string, [(?:[^Q\\]|\\.)*] with the double quote
    in place of Q. *)
Definition re_string_body : regex :=
  Star (Alt (Cls (fun c => negb ((c =? 34) || (c =? 92))))
            (Seq (Chr 92) (Cls (fun c => negb (is_line_terminator c))))).

(** The pattern QkeyQ \s* : \s* Q ( body ) Q, with the double quote in
    place of Q and the string body above as group 1. *)
Definition re_key_string (key : string) : regex :=
  Seq (Chr 34) (Seq (Lit (lit key)) (Seq (Chr 34)
    (Seq re_spaces (Seq (Chr 58) (Seq re_spaces
      (Seq (Chr 34) (Seq (Grp re_string_body) (Chr 34)))))))).

(** [/QtitleQ\s*:\s*Q/] with the double quote in place of Q. *)
Definition re_title_marker : regex :=
  Seq (Chr 34) (Seq (Lit (lit "title")) (Seq (Chr 34)
    (Seq re_spaces (Seq (Chr 58) (Seq re_spaces (Chr 34)))))).

(** [m[1]] of a successful match *)
Definition group1 (m : jsstring * option jsstring) : value :=
  match snd m with
  | Some s => VStr s
  | None => VUndefined
  end.

Definition cleanJson (text : jsstring) : jsstring :=
  match exec re_object text with
  | Some m => fst m
  | None => trim text
  end.

(** Returns the parsed value, or [null] when the repair failed. *)
Definition repairAndParseJson (jsonString : jsstring) : value :=
  match JSON.parse jsonString with
  | Some v => v
  | None =>
      let repaired := trim jsonString in
      let repaired :=
        if endsWith repaired (lit ",") then slice0_minus1 repaired
        else repaired in
      let openBraces := count_char 123 repaired in
      let closeBraces := count_char 125 repaired in
      let openBrackets := count_char 91 repaired in
      let closeBrackets := count_char 93 repaired in
      let quotes := count_char 34 repaired in
      let repaired :=
        if negb (quotes mod 2 =? 0)%nat then repaired ++ [34]
        else repaired in
      let repaired :=
        if (closeBrackets <? openBrackets)%nat
        then repaired ++ repeat_char 93 (openBrackets - closeBrackets)
        else repaired in
      let repaired :=
        if (closeBraces <? openBraces)%nat
        then repaired ++ repeat_char 125 (openBraces - closeBraces)
        else repaired in
      match JSON.parse repaired with
      | Some v => v
      | None => VNull
      end
  end.

(** The body of the loop of [resilientParse] for one part: [None] is the
    [continue] taken when the part holds no closing quote. *)
Definition scavenge_section (part : jsstring) : option value :=
  match indexOf 34 part with
  | None => None
  | Some titleEnd =>
      let title := take titleEnd part in
      let content :=
        match exec (re_key_string "content") part with
        | Some m => group1 m
        | None => VStr (lit "Content missing")
        end in
      let codeExample :=
        match exec (re_key_string "codeExample") part with
        | Some m =>
            match group1 m with
            | VStr c =>
                VStr (replace_all [92; 34] [34]
                        (replace_all [92; 110] [10] c))
            | v => v
            end
        | None => VUndefined
        end in
      Some (object [("title", VStr title); ("content", content);
                    ("codeExample", codeExample)])
  end.

(** Returns the scavenged document, or [null]. No statement of the body can
    throw, so the [catch] of the source is never entered. *)
Definition resilientParse (text fileName : jsstring) : value :=
  let summary :=
    match exec (re_key_string "summary") text with
    | Some m => group1 m
    | None => VStr (lit "Analysis completed")
    end in
  let parts := split re_title_marker text in
  let sections := omap scavenge_section (tail parts) in
  if (0 <? length sections)%nat
  then object [("filePath", VStr fileName); ("summary", summary);
               ("sections", VArr sections)]
  else VNull.

Definition fallbackRaw (text fileName : jsstring) : value :=
  let cleanText :=
    trim (replace_all (lit "summary:") []
            (filter (fun c => ¬ (c = 123 ∨ c = 34 ∨ c = 125)) text)) in
  object
    [("filePath", VStr fileName);
     ("summary", VStr (lit "Raw Analysis Output (JSON Parse Failed)"));
     ("sections",
      VArr [object
              [("title", VStr (lit "Analysis"));
               ("content",
                VStr (slice0 1000 cleanText
                      ++ (if 1000 <? len cleanText then lit "..."
                          else [])));
               ("codeExample",
                VStr (lit "// Code example unavailable due to formatting error"))]])].

(** Which of the three strategies of [generateDocumentation] produced the
    document. The source returns the document alone; the tag names the
    [return] statement that was taken. *)
Inductive QualityTier : Type := Strict | Recovered | RawFallback.

(** The handling of a non-empty response text in [generateDocumentation]
    (the body of [if (response.text)]). *)
Definition parseResponse (text fileName : jsstring) : QualityTier * value :=
  let cleanedText := cleanJson text in
  let parsed := repairAndParseJson cleanedText in
  if truthy parsed then
    (Strict,
     spread_with parsed
       [("sections",
         if isArray (get_opt parsed "sections") then get_opt parsed "sections"
         else VArr []);
        ("language", VStr (lit "en"))])
  else
    let recovered := resilientParse text fileName in
    if truthy recovered then
      (Recovered, spread_with recovered [("language", VStr (lit "en"))])
    else
      (RawFallback,
       spread_with (fallbackRaw text fileName) [("language", VStr (lit "en"))]).

(** What a call of the model API ([ai.models.generateContent]) comes back
    with: an exception with its message, or a response whose [text] is a
    string or [undefined]. *)
Inductive ApiOutcome : Type :=
| ApiThrows (message : jsstring)
| ApiResponds (text : option jsstring).

(** [if (response.text)] *)
Definition response_text (text : option jsstring) : option jsstring :=
  match text with
  | Some (c :: t) => Some (c :: t)
  | _ => None
  end.

(** An asynchronous function of the service returns at once, or awaits one
    call of the model API, whose request carries the interpolated parts of
    the prompt, and goes on with the outcome. *)
Inductive Awaiting : Type :=
| Return (v : value)
| AwaitModel (request : list value) (k : ApiOutcome -> value).

(** The value the promise resolves to, given the outcome of the call if one
    is made. *)
Definition resume (a : Awaiting) (api : ApiOutcome) : value :=
  match a with
  | Return v => v
  | AwaitModel _ k => k api
  end.

Definition minifiedDoc (fileName : jsstring) : value :=
  object
    [("filePath", VStr fileName);
     ("summary",
      VStr (lit "Skipped: File appears to be minified or generated code."));
     ("sections",
      VArr [object
              [("title", VStr (lit "Analysis Skipped"));
               ("content",
                VStr (lit "This file contains extremely long lines (1000+ chars), suggesting it is minified or machine-generated."));
               ("codeExample", VStr (lit "// No example available"))]]);
     ("language", VStr (lit "en"))].

Definition blockedDoc (fileName : jsstring) : value :=
  object
    [("filePath", VStr fileName);
     ("summary", VStr (lit "Analysis Blocked: AI returned no content."));
     ("sections",
      VArr [object
              [("title", VStr (lit "Safety/Filter Block"));
               ("content",
                VStr (lit "The AI model refused to generate content for this file."));
               ("codeExample", VStr (lit "// No content generated"))]]);
     ("language", VStr (lit "en"))].

Definition serviceErrorDoc (fileName : jsstring) : value :=
  object
    [("filePath", VStr fileName);
     ("summary", VStr (lit "Service Error: Unable to contact AI."));
     ("sections",
      VArr [object
              [("title", VStr (lit "API Error"));
               ("content", VStr (lit "Failed to connect to the Gemini API."));
               ("codeExample", VStr [])]]);
     ("language", VStr (lit "en"))].

Definition generateDocumentation (fileName fileContent : jsstring) : Awaiting :=
  if existsb (fun line => 1000 <? len line)
       (split_char 10 fileContent)
  then Return (minifiedDoc fileName)
  else
    let trimmedContent := slice0 10000 fileContent in
    AwaitModel [VStr trimmedContent; VStr fileName]
      (fun api =>
         match api with
         | ApiResponds text =>
             match response_text text with
             | Some text => snd (parseResponse text fileName)
             | None => blockedDoc fileName
             end
         | ApiThrows _ => serviceErrorDoc fileName
         end).

(** The merge of one section with its translation: [parsed] is the parsed
    translation, [idx] the position of [section]. *)
Definition mergeSection (parsed : value) (idx : nat) (section : value) : value :=
  let translated := get_index (get_opt parsed "sections") idx in
  spread_with section
    [("title", or_else (get_opt translated "title") (get_opt section "title"));
     ("content",
      or_else (get_opt translated "content") (get_opt section "content"))].

(** The fields of a section that go into the prompt; [None] when reading
    them throws. *)
Definition promptSection (s : value) : option value :=
  title ← get s "title";
  content ← get s "content";
  Some (object [("title", title); ("content", content)]).

(** [None] when the function throws before it calls the model: reading the
    fields of [doc] for the prompt is outside the [try] of the source. Inside
    the [try] nothing throws once the prompt is built. *)
Definition translateDocumentation (doc : value) (targetLanguage : jsstring)
  : option Awaiting :=
  match get doc "language", get doc "summary", get doc "sections" with
  | Some language, Some summary, Some sections =>
      if is_string language targetLanguage then Some (Return doc)
      else
        match sections with
        | VArr l =>
            match mapM promptSection l with
            | Some promptSections =>
                Some (AwaitModel
                  [VStr targetLanguage; summary; VArr promptSections]
                  (fun api =>
                     match api with
                     | ApiResponds text =>
                         match response_text text with
                         | Some text =>
                             let parsed :=
                               repairAndParseJson (cleanJson text) in
                             if truthy parsed then
                               spread_with doc
                                 [("summary", get_opt parsed "summary");
                                  ("sections",
                                   VArr (imap (mergeSection parsed) l));
                                  ("language", VStr targetLanguage)]
                             else doc
                         | None => doc
                         end
                     | ApiThrows _ => doc
                     end))
            | None => None
            end
        | _ => None
        end
  | _, _, _ => None
  end.

(** The members of [VerificationStatus]. *)
Definition IDLE : value := VStr (lit "IDLE").
Definition PENDING : value := VStr (lit "PENDING").
Definition SUCCESS : value := VStr (lit "SUCCESS").
Definition FAILED : value := VStr (lit "FAILED").

Definition invalidJsonResult : value :=
  object
    [("status", FAILED);
     ("logs",
      VStr (lit "Verification failed: Invalid JSON response from AI."))].

Definition noResponseResult : value :=
  object
    [("status", FAILED);
     ("logs",
      VStr (lit "Verification process failed to return a valid response."))].

Definition systemErrorResult (message : jsstring) : value :=
  object
    [("status", FAILED);
     ("logs",
      VStr (lit "System Error: "
            ++ match message with
               | [] => lit "Unknown error during verification"
               | _ => message
               end))].

Definition verifyCodeExample (fileName sourceCode : jsstring)
  (exampleCode : value) : Awaiting :=
  AwaitModel [VStr fileName; VStr (slice0 10000 sourceCode); exampleCode]
    (fun api =>
       match api with
       | ApiResponds text =>
           match response_text text with
           | Some text =>
               match JSON.parse (cleanJson text) with
               | Some data =>
                   match get data "status", get data "logs",
                         get data "fixedCode" with
                   | Some status, Some logs, Some fixedCode =>
                       object
                         [("status",
                           if is_string status (lit "SUCCESS") then SUCCESS
                           else FAILED);
                          ("logs", logs);
                          ("fixedCode", fixedCode)]
                   | _, _, _ => invalidJsonResult
                   end
               | None => invalidJsonResult
               end
           | None => noResponseResult
           end
       | ApiThrows message => systemErrorResult message
       end).

(** The text [repairAndParseJson] parses at its second attempt: the trimmed
    text without a final comma, with a closing quote when the quotes are odd
    in number, then the missing closing brackets, then the missing closing
    braces. *)
Definition repairText (jsonString : jsstring) : jsstring :=
  let repaired := trim jsonString in
  let repaired :=
    if endsWith repaired (lit ",") then slice0_minus1 repaired
    else repaired in
  let openBraces := count_char 123 repaired in
  let closeBraces := count_char 125 repaired in
  let openBrackets := count_char 91 repaired in
  let closeBrackets := count_char 93 repaired in
  let quotes := count_char 34 repaired in
  let repaired :=
    if negb (quotes mod 2 =? 0)%nat then repaired ++ [34]
    else repaired in
  let repaired :=
    if (closeBrackets <? openBrackets)%nat
    then repaired ++ repeat_char 93 (openBrackets - closeBrackets)
    else repaired in
  if (closeBraces <? openBraces)%nat
  then repaired ++ repeat_char 125 (openBraces - closeBraces)
  else repaired.

End Gemini.
Export Gemini.

(** ** The App component: the document store and the translation cache

    Each handler is first given run from its start to its end with nothing
    in between: a function from the state at its start, and from what its
    awaited calls come back with, to the state once its updates are
    applied. [handleTranslate] is then given again in its two halves, before
    and after its await, between which other handlers can run. The
    file-tree view ([allFiles], [visibleFiles], [currentPath]) and the token
    are left out: no handler below reads them. *)
Module App.

Inductive FileType : Type := file | dir.

Record FileNode : Type := FileNode_ {
  name : jsstring;
  path : jsstring;
  type : FileType;
  sha : jsstring }.

Inductive ProcessingState : Type :=
| ST_IDLE | ST_FETCHING | ST_ANALYZING | ST_VERIFYING | ST_TRANSLATING
| ST_COMPLETE | ST_ERROR.

Record AppState : Type := AppState_ {
  selectedFile : option FileNode;
  docState : gmap jsstring value;
  translationCache : gmap jsstring value;
  status : ProcessingState;
  errorMsg : option jsstring;
  repoInfo : option (jsstring * jsstring);
  viewLanguage : jsstring }.

(** What [fetchFileContent] comes back with: the message of the error it
    throws, or the content. *)
Definition Fetched : Type := jsstring + jsstring.

(** [LANGUAGES] of the document viewer: it calls [onTranslate] with the
    [code] of one of these and with nothing else. *)
Inductive Language : Type := en | es | fr | de | ja | zh | pt.

Definition code (l : Language) : jsstring :=
  match l with
  | en => lit "en" | es => lit "es" | fr => lit "fr" | de => lit "de"
  | ja => lit "ja" | zh => lit "zh" | pt => lit "pt"
  end.

(** The key of the translation cache, [`${path}:${lang}`]. *)
Definition cacheKey (path lang : jsstring) : jsstring :=
  path ++ 58 :: lang.

(** [m[k]] of a record used as a map: [undefined] when absent. *)
Definition at_key (m : gmap jsstring value) (k : jsstring) : value :=
  default VUndefined (m !! k).

(** The update that deletes every key starting with [path + ':']. *)
Definition evict (path : jsstring) (cache : gmap jsstring value)
  : gmap jsstring value :=
  filter (fun kv => startsWith (fst kv) (path ++ [58]) = false) cache.

(** The update that sets [verification] in every entry whose key starts with
    [path + ':']. *)
Definition refresh (path : jsstring) (result : value)
  (cache : gmap jsstring value) : gmap jsstring value :=
  map_imap
    (fun key doc =>
       Some (if startsWith key (path ++ [58])
             then spread_with doc [("verification", result)]
             else doc))
    cache.

Definition set_status (s : ProcessingState) (st : AppState) : AppState :=
  AppState_ (selectedFile st) (docState st) (translationCache st) s
    (errorMsg st) (repoInfo st) (viewLanguage st).

Definition set_error (msg : jsstring) (st : AppState) : AppState :=
  AppState_ (selectedFile st) (docState st) (translationCache st) (status st)
    (Some msg) (repoInfo st) (viewLanguage st).

Definition set_caches (ds tc : gmap jsstring value) (st : AppState)
  : AppState :=
  AppState_ (selectedFile st) ds tc (status st) (errorMsg st) (repoInfo st)
    (viewLanguage st).

(** [!existingDoc || existingDoc.sourceSha !== file.sha], the condition of
    [handleFileSelect] under which the file is processed again. *)
Definition isStale (ds : gmap jsstring value) (f : FileNode) : bool :=
  let existingDoc := at_key ds (path f) in
  negb (truthy existingDoc)
  || negb (is_string (get_opt existingDoc "sourceSha") (sha f)).

(** [now] is what [new Date().toISOString()] gives. *)
Definition processFile (st : AppState) (f : FileNode) (fetched : Fetched)
  (api : ApiOutcome) (now : jsstring) : AppState :=
  match repoInfo st with
  | None => st
  | Some _ =>
      match fetched with
      | inr content =>
          let generated :=
            resume (generateDocumentation (name f) content) api in
          let newDoc :=
            spread_with generated
              [("sourceSha", VStr (sha f));
               ("verification",
                object [("status", IDLE); ("logs", VStr [])]);
               ("lastUpdated", VStr now)] in
          set_status ST_IDLE
            (set_caches (<[path f := newDoc]> (docState st))
               (evict (path f) (translationCache st)) st)
      | inl message =>
          set_status ST_ERROR
            (set_error (lit "Failed to generate docs: " ++ message) st)
      end
  end.

(** Selecting a file also resets the view language when the selected path
    changes (the effect on [selectedFile?.path]). Selecting a directory only
    changes the file-tree view. *)
Definition select (st : AppState) (f : FileNode) : AppState :=
  AppState_ (Some f) (docState st) (translationCache st) (status st)
    (errorMsg st) (repoInfo st)
    (match selectedFile st with
     | Some old => if str_eqb (path old) (path f) then viewLanguage st
                   else lit "en"
     | None => lit "en"
     end).

Definition handleFileSelect (st : AppState) (f : FileNode) (fetched : Fetched)
  (api : ApiOutcome) (now : jsstring) : AppState :=
  match type f with
  | dir => st
  | file =>
      if isStale (docState st) f
      then processFile (select st f) f fetched api now
      else select st f
  end.

(** [null] is [VNull]. *)
Definition getCurrentDoc (st : AppState) : value :=
  match selectedFile st with
  | None => VNull
  | Some f =>
      if str_eqb (viewLanguage st) (lit "en") then at_key (docState st) (path f)
      else
        or_else
          (at_key (translationCache st) (cacheKey (path f) (viewLanguage st)))
          (at_key (docState st) (path f))
  end.

(** [sections.find(s => s.codeExample)], then [.codeExample] of what was
    found: [None] when no section has a truthy code example, and also when
    reading [codeExample] of a section throws. *)
Fixpoint findExample (l : list value) : option value :=
  match l with
  | [] => None
  | s :: l' =>
      match get s "codeExample" with
      | Some c => if truthy c then Some c else findExample l'
      | None => None
      end
  end.

(** The code example [handleVerify] sends to the oracle; [None] on every
    path on which the handler stops before [setStatus('VERIFYING')], by a
    [return] or by a TypeError. *)
Definition exampleToVerify (currentDoc : value) : option value :=
  if truthy currentDoc then
    match get_opt currentDoc "sections" with
    | VArr l => findExample l
    | _ => None
    end
  else None.

Definition handleVerify (st : AppState) (fetched : Fetched) (api : ApiOutcome)
  : AppState :=
  match selectedFile st, repoInfo st with
  | Some f, Some _ =>
      match exampleToVerify (getCurrentDoc st) with
      | Some exampleCode =>
          match fetched with
          | inr sourceCode =>
              let result :=
                resume (verifyCodeExample (name f) sourceCode exampleCode)
                  api in
              set_status ST_IDLE
                (set_caches
                   (<[path f :=
                        spread_with (at_key (docState st) (path f))
                          [("verification", result)]]> (docState st))
                   (refresh (path f) result (translationCache st)) st)
          | inl message =>
              set_status ST_IDLE
                (set_error (lit "Verification failed: " ++ message) st)
          end
      | None => st
      end
  | _, _ => st
  end.

Definition handleTranslate (st : AppState) (targetLang : jsstring)
  (api : ApiOutcome) : AppState :=
  match selectedFile st with
  | None => st
  | Some f =>
      let baseDoc := at_key (docState st) (path f) in
      if negb (truthy baseDoc) then st
      else if str_eqb targetLang (lit "en") then st
      else if truthy (at_key (translationCache st) (cacheKey (path f) targetLang))
      then st
      else
        match translateDocumentation baseDoc targetLang with
        | Some awaiting =>
            let translated := resume awaiting api in
            set_status ST_IDLE
              (set_caches (docState st)
                 (<[cacheKey (path f) targetLang := translated]>
                    (translationCache st)) st)
        | None => set_status ST_IDLE (set_error (lit "Translation failed") st)
        end
  end.

Definition setViewLanguage (lang : jsstring) (st : AppState) : AppState :=
  AppState_ (selectedFile st) (docState st) (translationCache st) (status st)
    (errorMsg st) (repoInfo st) lang.

Definition onTranslateRequest (st : AppState) (lang : jsstring)
  (api : ApiOutcome) : AppState :=
  setViewLanguage lang (handleTranslate st lang api).

(** The callback of [newSections]; [None] when reading [codeExample] of the
    section throws. *)
Definition fixSection (fixedCode : value) (section : value) : option value :=
  codeExample ← get section "codeExample";
  Some (if truthy codeExample
        then spread_with section [("codeExample", fixedCode)]
        else section).

(** The state update of the document store in [handleApplyFix]; [None] when
    the update throws ([doc.sections] is a truthy value without [map], or a
    section is [null]). *)
Definition applyFixDoc (fixedCode : value) (doc : value) : option value :=
  match or_else (get_opt doc "sections") (VArr []) with
  | VArr l =>
      newSections ← mapM (fixSection fixedCode) l;
      Some (spread_with doc
              [("sections", VArr newSections);
               ("verification",
                object
                  [("status", IDLE);
                   ("logs",
                    VStr (lit "Fix applied. Ready for re-verification."));
                   ("fixedCode", VUndefined)])])
  | _ => None
  end.

Definition handleApplyFix (st : AppState) (fixedCode : value)
  : option AppState :=
  match selectedFile st with
  | None => Some st
  | Some f =>
      let doc := at_key (docState st) (path f) in
      if negb (truthy doc) then Some st
      else
        updatedDoc ← applyFixDoc fixedCode doc;
        Some (set_caches (<[path f := updatedDoc]> (docState st))
                (evict (path f) (translationCache st)) st)
  end.

(** The state once a repository is loaded ([handleRepoSubmit]). *)
Definition loaded (owner repo : jsstring) : AppState :=
  AppState_ None ∅ ∅ ST_IDLE None (Some (owner, repo)) (lit "en").

(** One handler run from its start to its end with nothing in between,
    with what its awaited calls come back with. The viewer calls
    [onApplyFix] with whatever [verification.fixedCode] holds. *)
Inductive Event : Type :=
| SelectFile (f : FileNode) (fetched : Fetched) (api : ApiOutcome)
    (now : jsstring)
| Verify (fetched : Fetched) (api : ApiOutcome)
| Translate (lang : Language) (api : ApiOutcome)
| ApplyFix (fixedCode : value).

(** [None] when a state update throws. *)
Definition handle (st : AppState) (e : Event) : option AppState :=
  match e with
  | SelectFile f fetched api now => Some (handleFileSelect st f fetched api now)
  | Verify fetched api => Some (handleVerify st fetched api)
  | Translate lang api => Some (onTranslateRequest st (code lang) api)
  | ApplyFix fixedCode => handleApplyFix st fixedCode
  end.

(** *** [handleTranslate] at its await

    While [handleTranslate] awaits the translator, the status is
    TRANSLATING and the viewer stays on screen: only its language button is
    disabled, and the other handlers can be started. Across the await the
    handler holds the cache key it computed and the call it made, whose
    prompt and whose merge use the base document read before the await. *)
Record InFlight : Type := InFlight_ {
  flightKey : jsstring;
  flightRequest : list value;
  flightResume : ApiOutcome -> value }.

(** [handleTranslate] up to its await, with the call in flight when the
    translator is called. A document that is already in the target language
    is resolved without a call, and nothing runs before the handler goes
    on: that case is finished here. *)
Definition handleTranslateStart (st : AppState) (targetLang : jsstring)
  : AppState * option InFlight :=
  match selectedFile st with
  | None => (st, None)
  | Some f =>
      let baseDoc := at_key (docState st) (path f) in
      if negb (truthy baseDoc) then (st, None)
      else if str_eqb targetLang (lit "en") then (st, None)
      else if truthy (at_key (translationCache st) (cacheKey (path f) targetLang))
      then (st, None)
      else
        match translateDocumentation baseDoc targetLang with
        | Some (AwaitModel request k) =>
            (set_status ST_TRANSLATING st,
             Some (InFlight_ (cacheKey (path f) targetLang) request k))
        | Some (Return translated) =>
            (set_status ST_IDLE
               (set_caches (docState st)
                  (<[cacheKey (path f) targetLang := translated]>
                     (translationCache st)) st),
             None)
        | None =>
            (set_status ST_IDLE (set_error (lit "Translation failed") st),
             None)
        end
  end.

(** [handleTranslate] from its await on, in the state as it is by then:
    [setTranslationCache(prev => ({...prev, [cacheKey]: translated}))] and
    [setStatus('IDLE')]. *)
Definition handleTranslateEnd (st : AppState) (flight : InFlight)
  (api : ApiOutcome) : AppState :=
  set_status ST_IDLE
    (set_caches (docState st)
       (<[flightKey flight := flightResume flight api]> (translationCache st))
       st).

Definition onTranslateStart (st : AppState) (lang : jsstring)
  : AppState * option InFlight :=
  let (st', flight) := handleTranslateStart st lang in
  (setViewLanguage lang st', flight).

(** What React renders as a text without more ado: a primitive. *)
Definition displayable (v : value) : bool :=
  match v with
  | VArr _ | VObj _ => false
  | _ => true
  end.

(** The document viewer ([DocViewer], rendered with [getCurrentDoc()]): the
    argument of [onApplyFix] when the Apply AI Fix button is clicked. The
    button is rendered inside the block of a section that has a code
    example, when [doc.verification.status] is FAILED and
    [doc.verification.fixedCode] is truthy; the viewer shows a spinner
    instead while the status is ANALYZING, and a placeholder when there is
    no document. Whether a translation is awaited plays no part: it only
    replaces the summary, the titles and the contents by placeholders.
    [Some] is given only when the viewer is sure to render: every text it
    displays is a primitive, and [sourceSha], whose [substring] it calls, is
    a string or falsy. *)
Definition fixOffered (st : AppState) : option value :=
  let doc := getCurrentDoc st in
  match status st with
  | ST_ANALYZING => None
  | _ =>
      if negb (truthy doc) then None
      else
        verification ← get doc "verification";
        verificationStatus ← get verification "status";
        fixedCode ← get verification "fixedCode";
        let sections :=
          match get_opt doc "sections" with
          | VArr sections => sections
          | _ => []
          end in
        examples ← mapM (fun section => get section "codeExample") sections;
        if forallb
             (fun section =>
                displayable (get_opt section "title")
                && displayable (get_opt section "content")
                && displayable (get_opt section "codeExample"))
             sections
           && displayable (get_opt doc "filePath")
           && displayable (get_opt doc "summary")
           && displayable (get_opt verification "logs")
           && match get_opt doc "sourceSha" with
              | VStr _ => true
              | sourceSha => negb (truthy sourceSha)
              end
           && existsb truthy examples
           && is_string verificationStatus (lit "FAILED")
           && truthy fixedCode
        then Some fixedCode
        else None
  end.

(** [parts.join(c)] for a one-character separator *)
Fixpoint join_char (c : N) (parts : list jsstring) : jsstring :=
  match parts with
  | [] => []
  | [p] => p
  | p :: ps => p ++ c :: join_char c ps
  end.

(** [s.includes(t)] *)
Fixpoint includes (s t : jsstring) : bool :=
  startsWith s t
  || match s with
     | [] => false
     | _ :: s' => includes s' t
     end.

(** The folder [handleNavigateUp] moves to:
    [currentPath.split('/').slice(0, -1).join('/')]. *)
Definition parentPath (currentPath : jsstring) : jsstring :=
  let parts := split_char 47 currentPath in
  join_char 47 (take (length parts - 1) parts).

(** The callback of the first filter of [updateVisibleFiles]: whether the
    file of path [filePath] is listed in the folder [path]. (The filter on
    extensions and the sort by name that follow are not modelled.) *)
Definition isDirectChild (path filePath : jsstring) : bool :=
  if negb (startsWith filePath
             (match path with [] => [] | _ => path ++ [47] end))
  then
    if str_eqb path [] && negb (includes filePath [47]) then true else false
  else
    let relativePath :=
      match path with
      | [] => filePath
      | _ => drop (length path + 1) filePath
      end in
    negb (includes relativePath [47]).

(** [!!errorMsg && errorMsg.includes('Rate Limit')], what the token dialog
    is told and what opens it by itself once files are listed. *)
Definition isRateLimited (st : AppState) : bool :=
  match errorMsg st with
  | Some (c :: msg) => includes (c :: msg) (lit "Rate Limit")
  | _ => false
  end.

End App.
Export App.

(** ** services/github.ts *)
Module Github.

Definition rateLimitMessage : jsstring :=
  lit "GitHub API Rate Limit Exceeded. Please add a Token to increase limits (60 -> 5000 req/hr).".

Definition notFoundMessage : jsstring :=
  lit "Repository or file not found. Please check the URL and ensure the repository is public.".

Definition unauthorizedMessage : jsstring :=
  lit "Unauthorized. Please check your GitHub Token permissions.".

(** The decimal digits of a status code, as a template literal prints it. *)
Definition decimal (n : N) : jsstring :=
  lit (NilEmpty.string_of_uint (N.to_uint n)).

(** The argument of the [Error] that [handleGitHubError] throws (its message
    is that argument as a string), from the [status] and [statusText] of the
    response, its [x-ratelimit-remaining] header ([None] when absent) and
    what [response.json()] gives ([None] when it throws). [lower] stands
    for [String.prototype.toLowerCase], which is left to the engine. A
    message that is no string has no [toLowerCase]: the TypeError is caught
    after [errorMessage] was assigned. *)
Definition handleGitHubError (lower : jsstring -> jsstring) (status : N)
  (statusText : jsstring) (remaining : option jsstring) (body : option value)
  : value :=
  let errorMessage :=
    VStr (lit "GitHub API Error: " ++ decimal status ++ 32 :: statusText) in
  if (status =? 403)
     && match remaining with Some r => str_eqb r (lit "0") | None => false end
  then VStr rateLimitMessage
  else
    match body with
    | None => errorMessage
    | Some errorData =>
        match get errorData "message" with
        | None => errorMessage
        | Some message =>
            if truthy message then
              match message with
              | VStr m =>
                  let lowerMsg := lower m in
                  if (status =? 403)
                     && (includes lowerMsg (lit "rate limit")
                         || includes lowerMsg (lit "secondary rate limit"))
                  then VStr rateLimitMessage
                  else if status =? 404 then VStr notFoundMessage
                  else if status =? 401 then VStr unauthorizedMessage
                  else message
              | _ => message
              end
            else errorMessage
        end
    end.

(** One item of the tree of [fetchRepoTree] as a [FileNode]:
    [name] is [item.path.split('/').pop() || item.path]. *)
Definition treeNode (itemPath itemType itemSha : jsstring) : FileNode :=
  FileNode_
    (match last (split_char 47 itemPath) with
     | Some (c :: n) => c :: n
     | _ => itemPath
     end)
    itemPath
    (if str_eqb itemType (lit "blob") then file else dir)
    itemSha.

(** Lower case of the letters A to Z, every other code unit kept: what
    [toLowerCase] does to a text of ASCII code units. *)
Definition lower_ascii (s : jsstring) : jsstring :=
  map (fun c => if (65 <=? c) && (c <=? 90) then c + 32 else c) s.

End Github.
Export Github.

(** ** The data model of the specification, as predicates on values *)
Module Model.

Definition is_strb (v : value) : bool :=
  match v with
  | VStr _ => true
  | _ => false
  end.

(** A Section: [title] and [content] are present and are strings. *)
Definition sectionb (s : value) : bool :=
  is_strb (get_opt s "title") && is_strb (get_opt s "content").

(** A Document: [summary] is a string and [sections] is a sequence of
    Sections. *)
Definition documentb (d : value) : bool :=
  is_strb (get_opt d "summary")
  && match get_opt d "sections" with
     | VArr l => forallb sectionb l
     | _ => false
     end.

(** The sections of a document. *)
Definition sections_of (d : value) : list value :=
  match get_opt d "sections" with
  | VArr l => l
  | _ => []
  end.

(** The code examples of a document, section by section. *)
Definition codeExamples (d : value) : list value :=
  map (fun s => get_opt s "codeExample") (sections_of d).

(** Tier [a] is at least as good as tier [b]. *)
Definition tier_rank (t : QualityTier) : nat :=
  match t with
  | Strict => 2
  | Recovered => 1
  | RawFallback => 0
  end.

Definition at_least (a b : QualityTier) : Prop :=
  (tier_rank b <= tier_rank a)%nat.

(** A response cut off by the output limit right after its first member. *)
Definition cut_off_response : jsstring := jq "{'filePath':'a.ts'".

(** The inputs of the testable properties of the specification. *)
Definition trailing_comma_input : jsstring :=
  jq "{'summary':'x','sections':[{'title':'A','content':'B'},]}".

Definition scavenging_input : jsstring :=
  jq "garbage 'title': 'Setup' garbage 'content': 'Install deps' garbage".

(** The content has a line of more than 1000 code units: more than 1000
    code units in a row without a line feed. *)
Definition has_long_line (content : jsstring) : Prop :=
  exists before run after,
    content = before ++ run ++ after /\ (10 ∉ run) /\ 1000 < len run.

Definition minified_content : jsstring := replicate (N.to_nat 1001) 97.

(** A canonical entry exists for the path: [docState[path]] is truthy. *)
Definition has_entry (ds : gmap jsstring value) (p : jsstring) (d : value)
  : Prop :=
  ds !! p = Some d /\ truthy d = true.

(** A state to run the handlers on: the file src/a.ts is selected, it is
    documented at fingerprint sha1, and its Spanish translation is cached. *)
Definition file_a : FileNode :=
  FileNode_ (lit "a.ts") (lit "src/a.ts") file (lit "sha1").

(** The same file after a commit. *)
Definition file_a' : FileNode :=
  FileNode_ (lit "a.ts") (lit "src/a.ts") file (lit "sha2").

Definition idle : value := object [("status", IDLE); ("logs", VStr [])].

Definition doc_a : value :=
  object
    [("filePath", VStr (lit "a.ts"));
     ("summary", VStr (lit "Adds numbers."));
     ("sections",
      VArr [object [("title", VStr (lit "add"));
                    ("content", VStr (lit "Adds two numbers."));
                    ("codeExample", VStr (lit "add(1, 2)"))];
            object [("title", VStr (lit "Notes"));
                    ("content", VStr (lit "No state."))]]);
     ("language", VStr (lit "en"));
     ("sourceSha", VStr (lit "sha1"));
     ("verification", idle);
     ("lastUpdated", VStr (lit "2026-01-01T00:00:00.000Z"))].

Definition doc_a_es : value :=
  object
    [("filePath", VStr (lit "a.ts"));
     ("summary", VStr (lit "Suma numeros."));
     ("sections",
      VArr [object [("title", VStr (lit "sumar"));
                    ("content", VStr (lit "Suma dos numeros."));
                    ("codeExample", VStr (lit "add(1, 2)"))];
            object [("title", VStr (lit "Notas"));
                    ("content", VStr (lit "Sin estado."))]]);
     ("language", VStr (lit "es"));
     ("sourceSha", VStr (lit "sha1"));
     ("verification", idle);
     ("lastUpdated", VStr (lit "2026-01-01T00:00:00.000Z"))].

Definition st_a : AppState :=
  AppState_ (Some file_a)
    {[ lit "src/a.ts" := doc_a ]}
    {[ cacheKey (lit "src/a.ts") (code es) := doc_a_es ]}
    ST_IDLE None (Some (lit "octo", lit "repo")) (lit "en").

Definition now_a : jsstring := lit "2026-02-02T00:00:00.000Z".

(** An oracle output cut off before the closing brace. *)
Definition truncated_verdict : jsstring :=
  jq "{'status':'SUCCESS','logs':'ok'".

(** What [handleApplyFix] makes of one section. *)
Definition fixedSection (fixedCode s : value) : value :=
  if truthy (get_opt s "codeExample")
  then spread_with s [("codeExample", fixedCode)]
  else s.

(** Every cached translation of a path, in every language of the viewer, has
    the code examples of the canonical entry of the path. *)
Definition mirrors (ds tc : gmap jsstring value) : Prop :=
  forall p lang t,
    tc !! cacheKey p (code lang) = Some t ->
    exists d, ds !! p = Some d /\ codeExamples t = codeExamples d.

(** The file is selected and documented, and the verification of its code
    example has failed with a fix. *)
Definition st_failed : AppState :=
  handleVerify
    (handleFileSelect (loaded (lit "octo") (lit "repo")) file_a
       (inr (lit "let a = 1"))
       (ApiResponds
          (Some (jq "{'summary':'s','sections':[{'title':'t','content':'c','codeExample':'e'}]}")))
       now_a)
    (inr (lit "let a = 1"))
    (ApiResponds
       (Some (jq "{'status':'FAILED','logs':'no','fixedCode':'fixed'}"))).

(** What the translator answers when asked for Spanish. *)
Definition answer_es : ApiOutcome :=
  ApiResponds (Some (jq "{'summary':'S','sections':[{'title':'T'}]}")).

(** The path of the file a handler runs on: the file selected by the event,
    or the file selected before it. *)
Definition touched (st : AppState) (e : Event) : option jsstring :=
  match e with
  | SelectFile f _ _ _ => Some (path f)
  | _ => path <$> selectedFile st
  end.

End Model.
Export Model.

(** ** Properties *)

(** *** Object properties *)

Ltac lit_neq :=
  let H := fresh in intros H; vm_compute in H; discriminate H.

Lemma str_eqb_true (a b : jsstring) : str_eqb a b = true <-> a = b.
Proof. unfold str_eqb. apply bool_decide_eq_true. Qed.

Lemma str_eqb_refl (a : jsstring) : str_eqb a a = true.
Proof. by apply str_eqb_true. Qed.

Lemma str_eqb_false (a b : jsstring) : str_eqb a b = false <-> a ≠ b.
Proof. unfold str_eqb. apply bool_decide_eq_false. Qed.

Lemma lookup_set_prop_eq k v ps : lookup_prop k (set_prop k v ps) = v.
Proof.
  induction ps as [|[k' v'] ps IH]; simpl.
  - by rewrite str_eqb_refl.
  - destruct (str_eqb k' k) eqn:E; simpl.
    + by rewrite str_eqb_refl.
    + by rewrite E.
Qed.

Lemma lookup_set_prop_ne k k' v ps :
  k ≠ k' -> lookup_prop k' (set_prop k v ps) = lookup_prop k' ps.
Proof.
  intros Hne. induction ps as [|[k0 v0] ps IH]; simpl.
  - by apply str_eqb_false in Hne as ->.
  - destruct (str_eqb k0 k) eqn:E; simpl.
    + apply str_eqb_true in E as ->.
      by apply str_eqb_false in Hne as ->.
    + by rewrite IH.
Qed.

Lemma get_opt_VObj ps k : get_opt (VObj ps) k = lookup_prop (lit k) ps.
Proof. done. Qed.

Lemma get_opt_spread_with v kvs k :
  get_opt (spread_with v kvs) k
  = lookup_prop (lit k)
      (fold_left (fun ps kv => set_prop (lit (fst kv)) (snd kv) ps) kvs
         (own_props v)).
Proof. done. Qed.

Lemma get_opt_object kvs k :
  get_opt (object kvs) k
  = lookup_prop (lit k)
      (fold_left (fun ps kv => set_prop (lit (fst kv)) (snd kv) ps) kvs []).
Proof. done. Qed.

(** Reads the property of an object literal or of a spread with literal
    keys. *)
Ltac read_props :=
  rewrite ?get_opt_spread_with, ?get_opt_object, ?get_opt_VObj;
  cbn [fold_left fst snd own_props];
  repeat (rewrite lookup_set_prop_eq
          || rewrite lookup_set_prop_ne by lit_neq).

(** *** The matcher *)

Import Regex.

Lemma star_loop_ext step fuel s cap k k' :
  (forall s0 cap0 k1 k2,
      (forall s1 cap1, k1 s1 cap1 = k2 s1 cap1) ->
      step s0 cap0 k1 = step s0 cap0 k2) ->
  (forall s1 cap1, k s1 cap1 = k' s1 cap1) ->
  star_loop step fuel s cap k = star_loop step fuel s cap k'.
Proof.
  intros Hstep Hk. revert s cap. induction fuel as [|fuel IH]; intros s cap.
  - apply Hk.
  - simpl. rewrite (Hk s cap).
    erewrite Hstep; [done|]. intros s1 cap1. simpl.
    destruct (_ <? _)%nat; [apply IH|done].
Qed.

Lemma rmatch_ext r s cap k k' :
  (forall s1 cap1, k s1 cap1 = k' s1 cap1) ->
  rmatch r s cap k = rmatch r s cap k'.
Proof.
  revert s cap k k'.
  induction r as [|c|p|r1 IH1 r2 IH2|r1 IH1 r2 IH2|r1 IH1|r1 IH1];
    intros s cap k k' Hk; simpl.
  - apply Hk.
  - destruct s as [|d s]; [done|]. destruct (d =? c); [apply Hk|done].
  - destruct s as [|d s]; [done|]. destruct (p d); [apply Hk|done].
  - apply IH1. intros s1 cap1. by apply IH2.
  - by rewrite (IH1 s cap k k' Hk), (IH2 s cap k k' Hk).
  - apply star_loop_ext; [|done]. intros s0 cap0 k1 k2. apply IH1.
  - apply IH1. intros s1 cap1. apply Hk.
Qed.

Lemma star_loop_fail step fuel s cap :
  (forall s0 cap0 k, (forall s1 cap1, k s1 cap1 = None) -> step s0 cap0 k = None) ->
  star_loop step fuel s cap (fun _ _ => None) = None.
Proof.
  intros Hstep. revert s cap. induction fuel as [|fuel IH]; intros s cap; [done|].
  simpl. rewrite Hstep; [done|]. intros s1 cap1. simpl.
  destruct (_ <? _)%nat; [apply IH|done].
Qed.

Lemma rmatch_fail r s cap k :
  (forall s1 cap1, k s1 cap1 = None) -> rmatch r s cap k = None.
Proof.
  revert s cap k.
  induction r as [|c|p|r1 IH1 r2 IH2|r1 IH1 r2 IH2|r1 IH1|r1 IH1];
    intros s cap k Hk; simpl.
  - apply Hk.
  - destruct s as [|d s]; [done|]. destruct (d =? c); [apply Hk|done].
  - destruct s as [|d s]; [done|]. destruct (p d); [apply Hk|done].
  - apply IH1. intros s1 cap1. by apply IH2.
  - by rewrite IH1, IH2.
  - rewrite (star_loop_ext _ _ _ _ k (fun _ _ => None)).
    + rewrite star_loop_fail; [done|]. intros; by apply IH1.
    + intros s0 cap0 k1 k2. apply rmatch_ext.
    + done.
  - apply IH1. intros s1 cap1. apply Hk.
Qed.

(** The fuel of a star never runs out: any fuel that covers the input gives
    the same result. *)
Lemma star_loop_fuel r fuel1 fuel2 s cap k :
  (length s <= fuel1)%nat -> (length s <= fuel2)%nat ->
  star_loop (rmatch r) fuel1 s cap k = star_loop (rmatch r) fuel2 s cap k.
Proof.
  revert fuel2 s cap. induction fuel1 as [|fuel1 IH]; intros fuel2 s cap H1 H2.
  - destruct s; [|simpl in H1; lia]. destruct fuel2 as [|fuel2]; [done|].
    simpl. rewrite rmatch_fail; [done|]. intros s1 cap1. simpl.
    by destruct s1.
  - destruct fuel2 as [|fuel2].
    + destruct s; [|simpl in H2; lia]. simpl.
      rewrite rmatch_fail; [done|]. intros s1 cap1. by destruct s1.
    + simpl. erewrite rmatch_ext; [done|]. intros s1 cap1. simpl.
      destruct (length s1 <? length s)%nat eqn:E; [|done].
      apply Nat.ltb_lt in E. apply IH; lia.
Qed.

Lemma star_loop_group step fuel s cap k res :
  (forall s0 cap0 k0 res0,
      step s0 cap0 k0 = Some res0 ->
      exists s1 cap1,
        k0 s1 cap1 = Some res0 /\ (is_Some cap0 -> is_Some cap1)) ->
  star_loop step fuel s cap k = Some res ->
  exists s1 cap1, k s1 cap1 = Some res /\ (is_Some cap -> is_Some cap1).
Proof.
  intros Hstep. revert s cap. induction fuel as [|fuel IH]; intros s cap; simpl.
  - intros H. by exists s, cap.
  - destruct (step s cap _) as [res'|] eqn:E.
    + intros [= ->]. apply Hstep in E as (s1 & cap1 & Hk & Hcap).
      destruct (_ <? _)%nat; [|done].
      apply IH in Hk as (s2 & cap2 & Hk & Hcap2).
      exists s2, cap2. split; [done|]. auto.
    + intros H. by exists s, cap.
Qed.

Lemma rmatch_group r s cap k res :
  rmatch r s cap k = Some res ->
  exists s1 cap1,
    k s1 cap1 = Some res
    /\ (sets_group r = true \/ is_Some cap -> is_Some cap1).
Proof.
  revert s cap k res.
  induction r as [|c|p|r1 IH1 r2 IH2|r1 IH1 r2 IH2|r1 IH1|r1 IH1];
    intros s cap k res; simpl.
  - intros H. exists s, cap. split; [done|]. by intros [|].
  - destruct s as [|d s]; [done|]. destruct (d =? c); [|done].
    intros H. exists s, cap. split; [done|]. by intros [|].
  - destruct s as [|d s]; [done|]. destruct (p d); [|done].
    intros H. exists s, cap. split; [done|]. by intros [|].
  - intros H. apply IH1 in H as (s1 & cap1 & H & Hc1).
    apply IH2 in H as (s2 & cap2 & H & Hc2).
    exists s2, cap2. split; [done|].
    intros [[H1|H2]%orb_true_iff|Hcap]; auto.
  - destruct (rmatch r1 s cap k) as [res'|] eqn:E.
    + intros [= ->]. apply IH1 in E as (s1 & cap1 & H & Hc1).
      exists s1, cap1. split; [done|].
      intros [[H1 _]%andb_true_iff|Hcap]; auto.
    + intros H. apply IH2 in H as (s1 & cap1 & H & Hc1).
      exists s1, cap1. split; [done|].
      intros [[_ H2]%andb_true_iff|Hcap]; auto.
  - intros H. apply star_loop_group in H as (s1 & cap1 & H & Hc1).
    + exists s1, cap1. split; [done|]. intros [?|?]; [done|auto].
    + intros s0 cap0 k0 res0 H0. apply IH1 in H0 as (s1 & cap1 & H0 & Hc).
      exists s1, cap1. split; [done|]. auto.
  - intros H. apply IH1 in H as (s1 & cap1 & H & _).
    eexists s1, _. split; [done|]. by eauto.
Qed.

Lemma exec_group r s m :
  sets_group r = true -> exec r s = Some m -> exists c, snd m = Some c.
Proof.
  intros Hr. induction s as [|d s IH]; simpl.
  - destruct (match_here r []) as [[rest cap]|] eqn:E; [|done].
    intros [= <-]. simpl. unfold match_here in E.
    apply rmatch_group in E as (s1 & cap1 & [= _ ->] & Hc).
    destruct Hc as [c ->]; [by left|]. by exists c.
  - destruct (match_here r (d :: s)) as [[rest cap]|] eqn:E; [|done].
    intros [= <-]. simpl. unfold match_here in E.
    apply rmatch_group in E as (s1 & cap1 & [= _ ->] & Hc).
    destruct Hc as [c ->]; [by left|]. by exists c.
Qed.

(** *** JSON.parse and the repair, on examples *)

Example parse_nested :
  JSON.parse (jq " {'a': [1, -2.5e3, true, null, {}], 'b': 'x\u0041\n'} ")
  = Some (VObj [(lit "a",
                 VArr [VNum (Number false 1 0); VNum (Number true 25 2);
                       VBool true; VNull; VObj []]);
                (lit "b", VStr [120; 65; 10])]).
Proof. by vm_compute. Qed.

Example parse_duplicate_key :
  JSON.parse (jq "{'a':1,'b':2,'a':3}")
  = Some (VObj [(lit "a", VNum (Number false 3 0));
                (lit "b", VNum (Number false 2 0))]).
Proof. by vm_compute. Qed.

Example parse_rejects :
  JSON.parse (jq "[1,]") = None /\ JSON.parse (jq "{'a':1,}") = None
  /\ JSON.parse (jq "01") = None /\ JSON.parse (jq "[1] x") = None
  /\ JSON.parse (jq "{'a':'b") = None /\ JSON.parse [] = None.
Proof. by vm_compute. Qed.

Example zero_is_falsy :
  truthy (repairAndParseJson (lit "0.0e5")) = false
  /\ truthy (repairAndParseJson (lit "1e-400")) = false
  /\ truthy (repairAndParseJson (lit "0.1")) = true.
Proof. by vm_compute. Qed.

Example cleanJson_fenced :
  cleanJson (jq "Here it is: {'a':{'b':1}} done") = jq "{'a':{'b':1}}"
  /\ cleanJson (lit "  no braces  ") = lit "no braces".
Proof. by vm_compute. Qed.

(** A text cut off after a complete member: the comma goes, the brackets
    are closed, arrays first. *)
Example repair_truncated :
  repairAndParseJson
    (jq "{'summary':'x', 'sections':[{'title':'A','content':'B'},")
  = object
      [("summary", VStr (lit "x"));
       ("sections",
        VArr [object [("title", VStr (lit "A"));
                      ("content", VStr (lit "B"))]])].
Proof. by vm_compute. Qed.

(** A text cut off inside a string of a nested object: the quote is closed,
    then the bracket, then the braces, which is not JSON. *)
Example repair_truncated_in_string :
  repairAndParseJson
    (jq "{'summary':'x', 'sections':[{'title':'A','content':'B")
  = VNull
  /\ fst (parseResponse
            (jq "{'summary':'x', 'sections':[{'title':'A','content':'B")
            (lit "f")) = Recovered.
Proof. by vm_compute. Qed.

Example split_title_marker :
  Regex.split re_title_marker (jq "x 'title' : 'A', 'title':'B' y")
  = [lit "x "; jq "A', "; jq "B' y"].
Proof. by vm_compute. Qed.

(** *** The parse pipeline *)

Lemma group1_string key text m :
  exec (re_key_string key) text = Some m -> exists c, group1 m = VStr c.
Proof.
  intros H. apply exec_group in H as [c Hc].
  - exists c. unfold group1. by rewrite Hc.
  - unfold re_key_string. simpl. by rewrite !orb_true_r.
Qed.

Lemma scavenge_section_sectionb part s :
  scavenge_section part = Some s -> sectionb s = true.
Proof.
  unfold scavenge_section.
  destruct (indexOf 34 part) as [titleEnd|]; [|done].
  intros [= <-]. unfold sectionb.
  destruct (exec (re_key_string "content") part) as [m|] eqn:E.
  - destruct (group1_string _ _ _ E) as [c ->]. by read_props.
  - by read_props.
Qed.

Lemma resilientParse_document text fileName :
  truthy (resilientParse text fileName) = true ->
  documentb (resilientParse text fileName) = true.
Proof.
  unfold resilientParse.
  destruct (_ <? _)%nat; [|done]. intros _.
  unfold documentb. read_props.
  assert (forallb sectionb
            (omap scavenge_section (tail (split re_title_marker text)))
          = true) as ->.
  { apply forallb_forall. intros s [part [_ Hs]]%list_elem_of_In%list_elem_of_omap.
    by eapply scavenge_section_sectionb. }
  destruct (exec (re_key_string "summary") text) as [m|] eqn:E.
  - by destruct (group1_string _ _ _ E) as [c ->].
  - done.
Qed.

(** The part of the totality property that holds: the pipeline gives a
    result for every text (it is a total function: nothing throws); the
    result is an object whose [sections] is an array and whose [language] is
    en; and outside the Strict tier it is a Document. *)
Lemma parseResponse_shape text fileName :
  (exists l,
      get_opt (snd (parseResponse text fileName)) "sections" = VArr l)
  /\ get_opt (snd (parseResponse text fileName)) "language" = VStr (lit "en")
  /\ (fst (parseResponse text fileName) ≠ Strict ->
      documentb (snd (parseResponse text fileName)) = true).
Proof.
  unfold parseResponse.
  destruct (truthy (repairAndParseJson (cleanJson text))) eqn:Hstrict.
  - simpl. split; [|split; [by read_props|done]].
    read_props.
    destruct (get_opt (repairAndParseJson (cleanJson text)) "sections");
      simpl; by eauto.
  - destruct (truthy (resilientParse text fileName)) eqn:Hrec; simpl.
    + pose proof (resilientParse_document text fileName Hrec) as Hdoc.
      unfold resilientParse in *.
      destruct (_ <? _)%nat; [|done].
      split; [by read_props; eauto|]. split; [by read_props|].
      intros _. revert Hdoc. unfold documentb. by read_props.
    + split; [by read_props; eauto|]. split; [by read_props|].
      intros _. unfold documentb, fallbackRaw. by read_props.
Qed.

(** C1, at inputs the strict tier mishandles. The response text [{}] is
    valid JSON, so the first strategy returns it with [sections] defaulted
    and [language] added and nothing else: [summary] is [undefined], and the
    result is not a Document. The same happens to a response cut off after
    its first member, once the repair has closed its brace. *)
Theorem C1_strict_tier_leaves_summary_undefined (fileName : jsstring) :
  parseResponse (jq "{}") fileName
  = (Strict, object [("sections", VArr []); ("language", VStr (lit "en"))])
  /\ get_opt (snd (parseResponse (jq "{}") fileName)) "summary" = VUndefined
  /\ documentb (snd (parseResponse (jq "{}") fileName)) = false
  /\ parseResponse cut_off_response fileName
     = (Strict,
        object [("filePath", VStr (lit "a.ts")); ("sections", VArr []);
                ("language", VStr (lit "en"))])
  /\ documentb (snd (parseResponse cut_off_response fileName)) = false.
Proof. by vm_compute. Qed.

(** The same tier passes on sections that are no Sections. *)
Lemma strict_tier_keeps_null_section (fileName : jsstring) :
  parseResponse (jq "{'summary':'s','sections':[null]}") fileName
  = (Strict,
     object [("summary", VStr (lit "s")); ("sections", VArr [VNull]);
             ("language", VStr (lit "en"))])
  /\ documentb (snd (parseResponse (jq "{'summary':'s','sections':[null]}")
                       fileName)) = false.
Proof. by vm_compute. Qed.

(** C3 as stated fails: the repair only drops a comma that ends the text,
    the comma before the closing bracket stays and the second parse fails
    too, so the result is not of the Strict tier. *)
Lemma C3_trailing_comma_not_strict :
  ¬ (fst (parseResponse trailing_comma_input (lit "f")) = Strict
     /\ exists s,
         sections_of (snd (parseResponse trailing_comma_input (lit "f"))) = [s]
         /\ get_opt s "title" = VStr (lit "A")
         /\ get_opt s "content" = VStr (lit "B")).
Proof. intros [H _]. vm_compute in H. discriminate. Qed.

(** C3, amended: the trailing-comma input is recovered by the second
    strategy, with summary x and exactly one section, of title A and
    content B. *)
Theorem C3_trailing_comma_recovered :
  repairAndParseJson (cleanJson trailing_comma_input) = VNull
  /\ parseResponse trailing_comma_input (lit "f")
     = (Recovered,
        object
          [("filePath", VStr (lit "f"));
           ("summary", VStr (lit "x"));
           ("sections",
            VArr [object [("title", VStr (lit "A"));
                          ("content", VStr (lit "B"));
                          ("codeExample", VUndefined)]]);
           ("language", VStr (lit "en"))])
  /\ exists s,
      sections_of (snd (parseResponse trailing_comma_input (lit "f"))) = [s]
      /\ get_opt s "title" = VStr (lit "A")
      /\ get_opt s "content" = VStr (lit "B").
Proof.
  split; [by vm_compute|]. split; [by vm_compute|].
  eexists. by vm_compute.
Qed.

(** C9: the scavenging input yields the Recovered tier, and a section of
    title Setup and content Install deps. *)
Theorem C9_scavenging_fallback :
  fst (parseResponse scavenging_input (lit "f")) = Recovered
  /\ at_least (fst (parseResponse scavenging_input (lit "f"))) Recovered
  /\ exists s,
      s ∈ sections_of (snd (parseResponse scavenging_input (lit "f")))
      /\ get_opt s "title" = VStr (lit "Setup")
      /\ get_opt s "content" = VStr (lit "Install deps").
Proof.
  split; [by vm_compute|]. split; [vm_compute; lia|].
  exists (object [("title", VStr (lit "Setup"));
                  ("content", VStr (lit "Install deps"));
                  ("codeExample", VUndefined)]).
  split; [|by vm_compute].
  assert (sections_of (snd (parseResponse scavenging_input (lit "f")))
          = [object [("title", VStr (lit "Setup"));
                     ("content", VStr (lit "Install deps"));
                     ("codeExample", VUndefined)]]) as ->; [by vm_compute|].
  apply list_elem_of_here.
Qed.

(** *** Minified files *)

Lemma split_char_from_head c s cur :
  exists line rest,
    split_char_from c cur s = line :: rest /\ (length cur <= length line)%nat.
Proof.
  revert cur. induction s as [|d s IH]; intros cur; simpl.
  - exists (rev cur), []. by rewrite length_rev.
  - destruct (d =? c).
    + exists (rev cur), (split_char_from c [] s). by rewrite length_rev.
    + destruct (IH (d :: cur)) as (line & rest & -> & Hlen).
      exists line, rest. simpl in Hlen. split; [done|lia].
Qed.

Lemma split_char_from_run c run after cur :
  c ∉ run ->
  exists line rest,
    split_char_from c cur (run ++ after) = line :: rest
    /\ (length cur + length run <= length line)%nat.
Proof.
  revert cur. induction run as [|d run IH]; intros cur Hc; simpl.
  - destruct (split_char_from_head c after cur) as (line & rest & -> & Hlen).
    exists line, rest. split; [done|lia].
  - apply not_elem_of_cons in Hc as [Hd Hc].
    destruct (N.eqb_spec d c) as [->|_]; [done|].
    destruct (IH (d :: cur) Hc) as (line & rest & -> & Hlen).
    exists line, rest. simpl in Hlen. split; [done|lia].
Qed.

Lemma split_char_from_line c before run after cur :
  c ∉ run ->
  exists line,
    line ∈ split_char_from c cur (before ++ run ++ after)
    /\ (length run <= length line)%nat.
Proof.
  intros Hc. revert cur. induction before as [|d before IH]; intros cur; simpl.
  - destruct (split_char_from_run c run after cur Hc)
      as (line & rest & -> & Hlen).
    exists line. split; [apply list_elem_of_here|lia].
  - destruct (d =? c).
    + destruct (IH []) as (line & Hin & Hlen).
      exists line. split; [by apply list_elem_of_further|done].
    + apply IH.
Qed.

(** C10: when the content has a line of more than 1000 code units,
    [generateDocumentation] returns at once, with no call of the model, the
    fixed document: the summary that says the file was skipped, the single
    section Analysis Skipped, the language en. *)
Theorem C10_minified_file_skipped (fileName fileContent : jsstring) :
  has_long_line fileContent ->
  generateDocumentation fileName fileContent = Return (minifiedDoc fileName)
  /\ (forall api,
        resume (generateDocumentation fileName fileContent) api
        = minifiedDoc fileName)
  /\ get_opt (minifiedDoc fileName) "summary"
     = VStr (lit "Skipped: File appears to be minified or generated code.")
  /\ (exists s,
        sections_of (minifiedDoc fileName) = [s]
        /\ get_opt s "title" = VStr (lit "Analysis Skipped"))
  /\ get_opt (minifiedDoc fileName) "language" = VStr (lit "en").
Proof.
  intros (before & run & after & -> & Hrun & Hlen).
  assert (generateDocumentation fileName (before ++ run ++ after)
          = Return (minifiedDoc fileName)) as Hgen.
  { unfold generateDocumentation.
    destruct (split_char_from_line 10 before run after [] Hrun)
      as (line & Hin & Hline).
    assert (existsb (fun line => 1000 <? len line)
              (split_char 10 (before ++ run ++ after)) = true) as ->; [|done].
    apply existsb_exists. exists line. split.
    - by apply list_elem_of_In.
    - apply N.ltb_lt. unfold len in *. lia. }
  split; [done|]. split; [by intros api; rewrite Hgen|].
  split; [by vm_compute|]. split; [|by vm_compute].
  eexists. by vm_compute.
Qed.

Lemma C10_minified_file_skipped_witness :
  has_long_line minified_content
  /\ generateDocumentation (lit "bundle.min.js") minified_content
     = Return (minifiedDoc (lit "bundle.min.js")).
Proof.
  assert (has_long_line minified_content) as H.
  { exists [], minified_content, []. split; [by rewrite app_nil_r|].
    split; [|by vm_compute].
    unfold minified_content. intros [? _]%elem_of_replicate. discriminate. }
  split; [exact H|].
  exact (proj1 (C10_minified_file_skipped (lit "bundle.min.js")
                  minified_content H)).
Defined.

(** *** The caches *)

Lemma startsWith_app (a b : jsstring) : startsWith (a ++ b) a = true.
Proof.
  induction a as [|c a IH]; simpl.
  - by destruct b.
  - by rewrite N.eqb_refl.
Qed.

Lemma startsWith_cacheKey (p lang : jsstring) :
  startsWith (cacheKey p lang) (p ++ [58]) = true.
Proof.
  unfold cacheKey. rewrite (cons_middle 58 p lang), app_assoc.
  apply startsWith_app.
Qed.

Lemma evict_lookup p cache key :
  evict p cache !! key
  = if startsWith key (p ++ [58]) then None else cache !! key.
Proof.
  unfold evict. destruct (startsWith key (p ++ [58])) eqn:E.
  - apply map_lookup_filter_None. right. intros x _. simpl. by rewrite E.
  - destruct (cache !! key) as [x|] eqn:Hx.
    + by apply map_lookup_filter_Some.
    + apply map_lookup_filter_None. by left.
Qed.

Lemma evict_cacheKey p cache lang :
  evict p cache !! cacheKey p lang = None.
Proof. by rewrite evict_lookup, startsWith_cacheKey. Qed.

Lemma refresh_lookup p r cache key :
  refresh p r cache !! key
  = (fun doc =>
       if startsWith key (p ++ [58])
       then spread_with doc [("verification", r)] else doc) <$> cache !! key.
Proof.
  unfold refresh. rewrite map_lookup_imap. by destruct (cache !! key).
Qed.

Lemma truthy_spread_with v kvs : truthy (spread_with v kvs) = true.
Proof. done. Qed.

(** C6: a file is processed again exactly when no canonical entry exists for
    its path or the stored fingerprint differs from the file's; once
    [processFile] has stored the document generated for fingerprint [sha f],
    the file is not stale at that fingerprint and is stale at every other
    one, and selecting it again at the same fingerprint only selects it:
    whatever the collaborators would answer, nothing is generated and both
    caches stay as they are. *)
Theorem C6_staleness (st : AppState) (f : FileNode) (content : jsstring)
  (api : ApiOutcome) (now : jsstring) :
  is_Some (repoInfo st) ->
  type f = file ->
  let st' := processFile st f (inr content) api now in
  (forall ds g,
     isStale ds g = true
     <-> (¬ (exists d, has_entry ds (path g) d))
         \/ (exists d, has_entry ds (path g) d
                       /\ get_opt d "sourceSha" ≠ VStr (sha g)))
  /\ isStale (docState st') f = false
  /\ (forall fp2,
        fp2 ≠ sha f ->
        isStale (docState st') (FileNode_ (name f) (path f) (type f) fp2)
        = true)
  /\ (forall fetched api' now',
        handleFileSelect st' f fetched api' now' = select st' f
        /\ docState (handleFileSelect st' f fetched api' now') = docState st'
        /\ translationCache (handleFileSelect st' f fetched api' now')
           = translationCache st').
Proof.
  intros [info Hinfo] Hfile st'.
  assert (exists newDoc,
             docState st' = <[path f := newDoc]> (docState st)
             /\ truthy newDoc = true
             /\ get_opt newDoc "sourceSha" = VStr (sha f))
    as (newDoc & Hds & Htruthy & Hsha).
  { subst st'. unfold processFile. rewrite Hinfo. simpl.
    eexists. split; [done|]. split; [done|]. by read_props. }
  assert (forall fp, isStale (docState st')
                       (FileNode_ (name f) (path f) (type f) fp)
                     = negb (str_eqb (sha f) fp)) as Hstale.
  { intros fp. unfold isStale, at_key. simpl.
    rewrite Hds, lookup_insert_eq. simpl. by rewrite Htruthy, Hsha. }
  assert (isStale (docState st') f = false) as Hfresh.
  { unfold isStale, at_key. rewrite Hds, lookup_insert_eq. simpl.
    by rewrite Htruthy, Hsha; simpl; rewrite str_eqb_refl. }
  split; [|split; [done|split]].
  - intros ds g. unfold isStale, has_entry, at_key.
    destruct (ds !! path g) as [d|] eqn:Hd; simpl.
    + destruct (truthy d) eqn:Ht; simpl.
      * destruct (get_opt d "sourceSha") as [| | | |s| |] eqn:Hs; simpl;
          try (split; [intros _; right; exists d; by rewrite Hs|done]).
        destruct (str_eqb s (sha g)) eqn:E; simpl.
        -- apply str_eqb_true in E as ->. split; [done|].
           intros [Hno|(d' & [[= <-] _] & Hne)].
           ++ exfalso. apply Hno. by exists d.
           ++ by rewrite Hs in Hne.
        -- apply str_eqb_false in E. split; [|done].
           intros _. right. exists d. rewrite Hs. split; [done|congruence].
      * split; [|done]. intros _. left. intros (d' & [= <-] & Ht').
        by rewrite Ht in Ht'.
    + split; [|done]. intros _. left. by intros (d' & [=] & _).
  - intros fp2 Hne. rewrite Hstale. apply negb_true_iff, str_eqb_false.
    congruence.
  - intros fetched api' now'. unfold handleFileSelect.
    by rewrite Hfile, Hfresh.
Qed.

Lemma C6_staleness_witness :
  isStale (docState (processFile st_a file_a' (inr (lit "let a = 1"))
                       (ApiResponds (Some (jq "{'summary':'s'}"))) now_a))
    file_a' = false
  /\ isStale (docState (processFile st_a file_a' (inr (lit "let a = 1"))
                          (ApiResponds (Some (jq "{'summary':'s'}"))) now_a))
       file_a = true.
Proof.
  assert (is_Some (repoInfo st_a)) as H1 by (by eexists).
  assert (type file_a' = file) as H2 by reflexivity.
  destruct (C6_staleness st_a file_a' (lit "let a = 1")
              (ApiResponds (Some (jq "{'summary':'s'}"))) now_a H1 H2)
    as (_ & Hfresh & Hother & _).
  split; [exact Hfresh|].
  apply (Hother (lit "sha1")). by vm_compute.
Defined.

Lemma processFile_fetched st f content api now info :
  repoInfo st = Some info ->
  processFile st f (inr content) api now
  = set_status ST_IDLE
      (set_caches
         (<[path f :=
              spread_with (resume (generateDocumentation (name f) content) api)
                [("sourceSha", VStr (sha f));
                 ("verification",
                  object [("status", IDLE); ("logs", VStr [])]);
                 ("lastUpdated", VStr now)]]> (docState st))
         (evict (path f) (translationCache st)) st).
Proof. intros H. unfold processFile. by rewrite H. Qed.

Lemma handleVerify_accepted st f code src api info :
  selectedFile st = Some f ->
  repoInfo st = Some info ->
  exampleToVerify (getCurrentDoc st) = Some code ->
  handleVerify st (inr src) api
  = set_status ST_IDLE
      (set_caches
         (<[path f :=
              spread_with (at_key (docState st) (path f))
                [("verification",
                  resume (verifyCodeExample (name f) src code) api)]]>
            (docState st))
         (refresh (path f) (resume (verifyCodeExample (name f) src code) api)
            (translationCache st)) st).
Proof. intros Hf Hinfo Hex. unfold handleVerify. by rewrite Hf, Hinfo, Hex. Qed.

Lemma handleVerify_fetch_failed_caches st message api :
  docState (handleVerify st (inl message) api) = docState st
  /\ translationCache (handleVerify st (inl message) api)
     = translationCache st.
Proof.
  unfold handleVerify.
  destruct (selectedFile st), (repoInfo st); try done.
  by destruct (exampleToVerify (getCurrentDoc st)).
Qed.

(** C2 as stated fails: the file changed (fingerprint sha2), its content is
    fetched, the model call throws. No error is reported; the entry of the
    path is replaced by the placeholder document of the service error, and
    the cached translation of the path is evicted. *)
Lemma C2_generation_failure_is_stored :
  let st' :=
    processFile st_a file_a' (inr (lit "let a = 1")) (ApiThrows (lit "503"))
      now_a in
  errorMsg st' = None
  /\ status st' = ST_IDLE
  /\ docState st_a !! path file_a' = Some doc_a
  /\ docState st' !! path file_a'
     = Some (spread_with (serviceErrorDoc (lit "a.ts"))
               [("sourceSha", VStr (lit "sha2")); ("verification", idle);
                ("lastUpdated", VStr now_a)])
  /\ translationCache st_a !! cacheKey (path file_a') (code es)
     = Some doc_a_es
  /\ translationCache st' !! cacheKey (path file_a') (code es) = None
  /\ ¬ (errorMsg st' ≠ None
        /\ docState st' !! path file_a' = docState st_a !! path file_a'
        /\ translationCache st' = translationCache st_a).
Proof.
  repeat split; try by vm_compute.
  intros (H & _). apply H. by vm_compute.
Qed.

(** C2, amended. A failed content fetch is reported ([errorMsg], status
    ERROR in [processFile]) and leaves both caches as they were, in
    [processFile] and in [handleVerify]. A failed model call is not
    reported: [generateDocumentation] turns an exception into the Service
    Error placeholder and a response without text into the Analysis Blocked
    placeholder, and [processFile] stores the placeholder as the entry of
    the path, with the fingerprint of the file and an idle verification, and
    evicts the translations of the path. *)
Theorem C2_failures_and_caches (st : AppState) (f : FileNode) (now : jsstring) :
  is_Some (repoInfo st) ->
  (forall message api,
     let st' := processFile st f (inl message) api now in
     errorMsg st' = Some (lit "Failed to generate docs: " ++ message)
     /\ status st' = ST_ERROR
     /\ docState st' = docState st
     /\ translationCache st' = translationCache st)
  /\ (forall message api,
        docState (handleVerify st (inl message) api) = docState st
        /\ translationCache (handleVerify st (inl message) api)
           = translationCache st)
  /\ (forall content request k api placeholder,
        generateDocumentation (name f) content = AwaitModel request k ->
        (exists message,
            api = ApiThrows message /\ placeholder = serviceErrorDoc (name f))
        \/ (exists text,
               api = ApiResponds text /\ response_text text = None
               /\ placeholder = blockedDoc (name f)) ->
        let st' := processFile st f (inr content) api now in
        errorMsg st' = errorMsg st
        /\ status st' = ST_IDLE
        /\ docState st' !! path f
           = Some (spread_with placeholder
                     [("sourceSha", VStr (sha f));
                      ("verification",
                       object [("status", IDLE); ("logs", VStr [])]);
                      ("lastUpdated", VStr now)])
        /\ (forall lang,
              translationCache st' !! cacheKey (path f) lang = None)).
Proof.
  intros [info Hinfo]. split; [|split].
  - intros message api st'. subst st'. unfold processFile. by rewrite Hinfo.
  - intros message api. apply handleVerify_fetch_failed_caches.
  - intros content request k api placeholder Hgen Hfail st'. subst st'.
    rewrite (processFile_fetched _ _ _ _ _ _ Hinfo). simpl.
    split; [done|]. split; [done|]. split; [|by intros; apply evict_cacheKey].
    rewrite lookup_insert_eq. do 2 f_equal.
    rewrite Hgen. simpl. unfold generateDocumentation in Hgen.
    destruct (existsb _ _); [discriminate|]. injection Hgen as _ <-.
    destruct Hfail as [(message & -> & ->)|(text & -> & Htext & ->)];
      [done|by rewrite Htext].
Qed.

Lemma C2_failures_and_caches_witness :
  errorMsg (processFile st_a file_a' (inl (lit "Not Found")) (ApiThrows [])
              now_a)
  = Some (lit "Failed to generate docs: Not Found")
  /\ docState (processFile st_a file_a' (inl (lit "Not Found")) (ApiThrows [])
                 now_a) = docState st_a
  /\ docState (processFile st_a file_a' (inr (lit "let a = 1"))
                 (ApiThrows (lit "503")) now_a) !! path file_a'
     = Some (spread_with (serviceErrorDoc (name file_a'))
               [("sourceSha", VStr (sha file_a'));
                ("verification",
                 object [("status", IDLE); ("logs", VStr [])]);
                ("lastUpdated", VStr now_a)]).
Proof.
  assert (is_Some (repoInfo st_a)) as H by (by eexists).
  destruct (C2_failures_and_caches st_a file_a' now_a H)
    as (Hfetch & _ & Hgen).
  destruct (Hfetch (lit "Not Found") (ApiThrows [])) as (Herr & _ & Hds & _).
  split; [exact Herr|]. split; [exact Hds|].
  assert (existsb (fun line => 1000 <? len line)
            (split_char 10 (lit "let a = 1")) = false) as Hshort
    by (by vm_compute).
  assert (exists request k,
             generateDocumentation (name file_a') (lit "let a = 1")
             = AwaitModel request k) as (request & k & Hcall).
  { unfold generateDocumentation. rewrite Hshort. eexists _, _. reflexivity. }
  assert ((exists message,
              ApiThrows (lit "503") = ApiThrows message
              /\ serviceErrorDoc (name file_a') = serviceErrorDoc (name file_a'))
          \/ (exists text,
                 ApiThrows (lit "503") = ApiResponds text
                 /\ response_text text = None
                 /\ serviceErrorDoc (name file_a') = blockedDoc (name file_a')))
    as Hfail by (left; by exists (lit "503")).
  destruct (Hgen (lit "let a = 1") request k (ApiThrows (lit "503"))
              (serviceErrorDoc (name file_a')) Hcall Hfail)
    as (_ & _ & Hstored & _).
  exact Hstored.
Defined.

(** C4 as stated fails: the oracle output is cut off before its closing
    brace. [verifyCodeExample] parses it without any repair (the repair of
    the parser would have closed the brace and read the verdict), and
    returns an ordinary FAILED verdict; [handleVerify] reports no error and
    stores the verdict in the canonical entry and in the cached
    translation. *)
Lemma C4_malformed_verdict_is_stored :
  let st' :=
    handleVerify st_a (inr (lit "let a = 1"))
      (ApiResponds (Some truncated_verdict)) in
  JSON.parse (cleanJson truncated_verdict) = None
  /\ repairAndParseJson (cleanJson truncated_verdict)
     = object [("status", SUCCESS); ("logs", VStr (lit "ok"))]
  /\ errorMsg st' = None
  /\ get_opt (at_key (docState st') (path file_a)) "verification"
     = invalidJsonResult
  /\ get_opt invalidJsonResult "status" = FAILED
  /\ get_opt (at_key (translationCache st') (cacheKey (path file_a) (code es)))
       "verification" = invalidJsonResult.
Proof. repeat split; by vm_compute. Qed.

(** C4, amended. When the oracle answers with a text that [JSON.parse]
    rejects (after the extraction of [cleanJson], with no repair),
    [verifyCodeExample] returns the verdict FAILED with the log of the
    invalid response and no fixed code, never SUCCESS; [handleVerify]
    reports no error and stores that verdict in the canonical entry of the
    path and in every cached translation of the path. *)
Theorem C4_malformed_verdict (st : AppState) (f : FileNode) (code : value)
  (src text : jsstring) :
  selectedFile st = Some f ->
  is_Some (repoInfo st) ->
  exampleToVerify (getCurrentDoc st) = Some code ->
  text ≠ [] ->
  JSON.parse (cleanJson text) = None ->
  let r := resume (verifyCodeExample (name f) src code)
             (ApiResponds (Some text)) in
  let st' := handleVerify st (inr src) (ApiResponds (Some text)) in
  r = invalidJsonResult
  /\ get_opt r "status" = FAILED
  /\ get_opt r "logs"
     = VStr (lit "Verification failed: Invalid JSON response from AI.")
  /\ get_opt r "fixedCode" = VUndefined
  /\ errorMsg st' = errorMsg st
  /\ docState st' !! path f
     = Some (spread_with (at_key (docState st) (path f))
               [("verification", r)])
  /\ (forall lang t,
        translationCache st !! cacheKey (path f) lang = Some t ->
        translationCache st' !! cacheKey (path f) lang
        = Some (spread_with t [("verification", r)])).
Proof.
  intros Hf [info Hinfo] Hex Htext Hparse r st'.
  assert (r = invalidJsonResult) as Hr.
  { subst r. simpl. destruct text; [done|]. simpl. by rewrite Hparse. }
  subst st'. rewrite (handleVerify_accepted _ _ _ _ _ _ Hf Hinfo Hex).
  fold r. rewrite Hr. simpl.
  split; [done|]. split; [by vm_compute|]. split; [by vm_compute|].
  split; [by vm_compute|]. split; [done|].
  split; [by rewrite lookup_insert_eq|].
  intros lang t Ht. by rewrite refresh_lookup, Ht, startsWith_cacheKey.
Qed.

Lemma C4_malformed_verdict_witness :
  resume (verifyCodeExample (name file_a) (lit "let a = 1")
            (VStr (lit "add(1, 2)")))
    (ApiResponds (Some truncated_verdict)) = invalidJsonResult.
Proof.
  assert (selectedFile st_a = Some file_a) as H1 by reflexivity.
  assert (is_Some (repoInfo st_a)) as H2 by (by eexists).
  assert (exampleToVerify (getCurrentDoc st_a) = Some (VStr (lit "add(1, 2)")))
    as H3 by (by vm_compute).
  assert (truncated_verdict ≠ []) as H4 by (by vm_compute).
  assert (JSON.parse (cleanJson truncated_verdict) = None) as H5
    by (by vm_compute).
  exact (proj1 (C4_malformed_verdict st_a file_a (VStr (lit "add(1, 2)"))
                  (lit "let a = 1") truncated_verdict H1 H2 H3 H4 H5)).
Defined.

(** C7: once the result [r] of the oracle is accepted by [handleVerify], the
    canonical entry of the path carries [r], and so does every translation
    of the path that was cached before; all the other properties of such a
    translation (its summary, its sections with their titles, contents and
    code examples) are what they were. *)
Theorem C7_verification_fan_out (st : AppState) (f : FileNode) (code : value)
  (src : jsstring) (api : ApiOutcome) :
  selectedFile st = Some f ->
  is_Some (repoInfo st) ->
  exampleToVerify (getCurrentDoc st) = Some code ->
  let r := resume (verifyCodeExample (name f) src code) api in
  let st' := handleVerify st (inr src) api in
  get_opt (at_key (docState st') (path f)) "verification" = r
  /\ (forall lang t,
        translationCache st !! cacheKey (path f) lang = Some t ->
        exists t',
          translationCache st' !! cacheKey (path f) lang = Some t'
          /\ get_opt t' "verification" = r
          /\ (forall k,
                k ≠ lit "verification" ->
                lookup_prop k (own_props t') = lookup_prop k (own_props t))
          /\ (forall ps,
                t = VObj ps ->
                get_opt t' "summary" = get_opt t "summary"
                /\ sections_of t' = sections_of t
                /\ codeExamples t' = codeExamples t)).
Proof.
  intros Hf [info Hinfo] Hex r st'. subst st'.
  rewrite (handleVerify_accepted _ _ _ _ _ _ Hf Hinfo Hex). fold r. simpl.
  split.
  - unfold at_key at 1. rewrite lookup_insert_eq. simpl default.
    by read_props.
  - intros lang t Ht. eexists.
    rewrite refresh_lookup, Ht, startsWith_cacheKey. simpl.
    split; [done|]. split; [by read_props|]. split.
    + intros k Hk. simpl. by rewrite lookup_set_prop_ne.
    + intros ps ->. unfold codeExamples, sections_of. by read_props.
Qed.

Lemma C7_verification_fan_out_witness :
  get_opt
    (at_key
       (translationCache
          (handleVerify st_a (inr (lit "let a = 1"))
             (ApiResponds
                (Some (jq "{'status':'FAILED','logs':'no','fixedCode':'add(2)'}")))))
       (cacheKey (path file_a) (code es))) "verification"
  = object [("status", FAILED); ("logs", VStr (lit "no"));
            ("fixedCode", VStr (lit "add(2)"))].
Proof.
  assert (selectedFile st_a = Some file_a) as H1 by reflexivity.
  assert (is_Some (repoInfo st_a)) as H2 by (by eexists).
  assert (exampleToVerify (getCurrentDoc st_a) = Some (VStr (lit "add(1, 2)")))
    as H3 by (by vm_compute).
  assert (translationCache st_a !! cacheKey (path file_a) (code es)
          = Some doc_a_es) as H4 by (by vm_compute).
  destruct (C7_verification_fan_out st_a file_a (VStr (lit "add(1, 2)"))
              (lit "let a = 1")
              (ApiResponds
                 (Some (jq "{'status':'FAILED','logs':'no','fixedCode':'add(2)'}")))
              H1 H2 H3) as (_ & Hfan).
  destruct (Hfan (code es) doc_a_es H4) as (t' & Ht' & Hr & _).
  unfold at_key. rewrite Ht'. simpl. rewrite Hr. by vm_compute.
Defined.

(** *** Applying a fix *)

Lemma documentb_inv doc :
  documentb doc = true ->
  exists ps l,
    doc = VObj ps /\ get_opt doc "sections" = VArr l
    /\ forallb sectionb l = true.
Proof.
  unfold documentb. intros [Hsum Hsec]%andb_true_iff.
  destruct doc as [| | | | | |ps]; try done.
  destruct (get_opt (VObj ps) "sections") as [| | | | |l|] eqn:E; try done.
  by exists ps, l.
Qed.

Lemma sectionb_inv s : sectionb s = true -> exists ps, s = VObj ps.
Proof.
  unfold sectionb. intros [Ht _]%andb_true_iff.
  destruct s; try done. by eexists.
Qed.

Lemma mapM_fixSection fixedCode l :
  forallb sectionb l = true ->
  mapM (fixSection fixedCode) l = Some (map (fixedSection fixedCode) l).
Proof.
  intros Hl. apply mapM_Some_2.
  induction l as [|s l IH]; simpl; [constructor|].
  simpl in Hl. apply andb_true_iff in Hl as [Hs Hl].
  constructor; [|by apply IH].
  apply sectionb_inv in Hs as [ps ->]. done.
Qed.

(** C5: [handleApplyFix] on a path with a canonical document. Every section
    whose code example was non-empty has the fixed code as its code example
    (title and content kept), every other section is unchanged; the
    verification record is the idle one with the log of the fix and no fixed
    code; every translation of the path is evicted. *)
Theorem C5_apply_fix (st : AppState) (f : FileNode) (doc fixedCode : value) :
  selectedFile st = Some f ->
  docState st !! path f = Some doc ->
  documentb doc = true ->
  exists st' doc',
    handleApplyFix st fixedCode = Some st'
    /\ docState st' !! path f = Some doc'
    /\ length (sections_of doc') = length (sections_of doc)
    /\ (forall i s,
          sections_of doc !! i = Some s ->
          exists s',
            sections_of doc' !! i = Some s'
            /\ if truthy (get_opt s "codeExample")
               then get_opt s' "codeExample" = fixedCode
                    /\ get_opt s' "title" = get_opt s "title"
                    /\ get_opt s' "content" = get_opt s "content"
               else s' = s)
    /\ get_opt doc' "verification"
       = object
           [("status", IDLE);
            ("logs", VStr (lit "Fix applied. Ready for re-verification."));
            ("fixedCode", VUndefined)]
    /\ get_opt doc' "summary" = get_opt doc "summary"
    /\ get_opt doc' "sourceSha" = get_opt doc "sourceSha"
    /\ (forall lang, translationCache st' !! cacheKey (path f) lang = None).
Proof.
  intros Hf Hdoc Hvalid.
  destruct (documentb_inv doc Hvalid) as (ps & l & -> & Hsec & Hl).
  assert (applyFixDoc fixedCode (VObj ps)
          = Some (spread_with (VObj ps)
                    [("sections", VArr (map (fixedSection fixedCode) l));
                     ("verification",
                      object
                        [("status", IDLE);
                         ("logs",
                          VStr (lit "Fix applied. Ready for re-verification."));
                         ("fixedCode", VUndefined)])])) as Hfix.
  { unfold applyFixDoc. rewrite Hsec. simpl.
    by rewrite (mapM_fixSection fixedCode l Hl). }
  eexists _, _. split.
  { unfold handleApplyFix, at_key. rewrite Hf, Hdoc. simpl.
    by rewrite Hfix. }
  simpl. split; [by rewrite lookup_insert_eq|].
  assert (sections_of
            (spread_with (VObj ps)
               [("sections", VArr (map (fixedSection fixedCode) l));
                ("verification",
                 object
                   [("status", IDLE);
                    ("logs",
                     VStr (lit "Fix applied. Ready for re-verification."));
                    ("fixedCode", VUndefined)])])
          = map (fixedSection fixedCode) l) as ->.
  { unfold sections_of. by read_props. }
  assert (sections_of (VObj ps) = l) as -> by (unfold sections_of; by rewrite Hsec).
  split; [by rewrite length_map|]. split.
  { intros i s Hs. exists (fixedSection fixedCode s). split.
    - change (map (fixedSection fixedCode) l !! i)
        with ((fixedSection fixedCode <$> l) !! i).
      by rewrite list_lookup_fmap, Hs.
    - assert (sectionb s = true) as [qs ->]%sectionb_inv.
      { rewrite forallb_forall in Hl. apply Hl.
        apply list_elem_of_In, list_elem_of_lookup. by exists i. }
      unfold fixedSection.
      destruct (truthy (get_opt (VObj qs) "codeExample")); [|done].
      repeat split; by read_props. }
  split; [by read_props|]. split; [by read_props|]. split; [by read_props|].
  intros lang. apply evict_cacheKey.
Qed.

Lemma C5_apply_fix_witness :
  exists st',
    handleApplyFix st_a (VStr (lit "add(2, 3)")) = Some st'
    /\ translationCache st' !! cacheKey (path file_a) (code es) = None.
Proof.
  assert (selectedFile st_a = Some file_a) as H1 by reflexivity.
  assert (docState st_a !! path file_a = Some doc_a) as H2 by (by vm_compute).
  assert (documentb doc_a = true) as H3 by (by vm_compute).
  destruct (C5_apply_fix st_a file_a doc_a (VStr (lit "add(2, 3)")) H1 H2 H3)
    as (st' & doc' & Hrun & _ & _ & _ & _ & _ & _ & Hevict).
  exists st'. split; [exact Hrun|exact (Hevict (code es))].
Defined.

(** *** Translations and the code examples *)

Lemma string_of_uint_digits (d : Decimal.uint) :
  forallb JSON.is_digit (lit (NilEmpty.string_of_uint d)) = true.
Proof. induction d; simpl; by rewrite ?IHd. Qed.

Lemma index_key_digits i : forallb JSON.is_digit (index_key i) = true.
Proof. apply string_of_uint_digits. Qed.

Lemma lookup_prop_digit_keys k ps :
  Forall (fun kv => forallb JSON.is_digit (fst kv) = true) ps ->
  forallb JSON.is_digit k = false ->
  lookup_prop k ps = VUndefined.
Proof.
  intros Hps Hk. induction Hps as [|[k' v] ps Hk' _ IH]; simpl; [done|].
  destruct (str_eqb k' k) eqn:E; [|done].
  apply str_eqb_true in E as ->. simpl in Hk'. congruence.
Qed.

(** A property whose name is not a number reads the same on a value and on
    the copy a spread makes of it. *)
Lemma lookup_own_props v k :
  forallb JSON.is_digit (lit k) = false ->
  lookup_prop (lit k) (own_props v) = get_opt v k.
Proof.
  intros Hk. destruct v as [| | | |s|l|ps]; try done; simpl.
  - apply lookup_prop_digit_keys; [|done].
    apply Forall_lookup. intros i [k' x].
    rewrite list_lookup_imap. destruct (s !! i); [|done].
    intros [= <- _]. apply index_key_digits.
  - apply lookup_prop_digit_keys; [|done].
    apply Forall_lookup. intros i [k' x].
    rewrite list_lookup_imap. destruct (l !! i); [|done].
    intros [= <- _]. apply index_key_digits.
Qed.

Lemma sections_of_spread_verification t r :
  sections_of (spread_with t [("verification", r)]) = sections_of t.
Proof.
  unfold sections_of. read_props. by rewrite lookup_own_props.
Qed.

Lemma codeExamples_spread_verification t r :
  codeExamples (spread_with t [("verification", r)]) = codeExamples t.
Proof. unfold codeExamples. by rewrite sections_of_spread_verification. Qed.

Lemma codeExample_mergeSection parsed idx s :
  get_opt (mergeSection parsed idx s) "codeExample" = get_opt s "codeExample".
Proof. unfold mergeSection. read_props. by rewrite lookup_own_props. Qed.

(** The merge of a translation keeps the code examples of the document it
    translates, section by section, whatever the translator answers. *)
Lemma translateDocumentation_codeExamples doc lang awaiting api :
  translateDocumentation doc lang = Some awaiting ->
  codeExamples (resume awaiting api) = codeExamples doc.
Proof.
  unfold translateDocumentation.
  destruct (get doc "language") as [language|] eqn:Hlang; [|done].
  destruct (get doc "summary") as [summary|]; [|done].
  destruct (get doc "sections") as [sections|] eqn:Hsec; [|done].
  destruct (is_string language lang); [by intros [= <-]|].
  destruct sections as [| | | | |l|]; try done.
  destruct (mapM promptSection l); [|done].
  intros [= <-]. simpl.
  destruct api as [message|text]; [done|].
  destruct (response_text text) as [text'|]; [|done].
  destruct (truthy _); [|done].
  unfold codeExamples at 1, sections_of at 1. read_props.
  assert (codeExamples doc = (fun s => get_opt s "codeExample") <$> l) as ->.
  { unfold codeExamples, sections_of, get_opt. by rewrite Hsec. }
  change (map ?g ?x) with (g <$> x).
  rewrite fmap_imap. rewrite <- imap_const. apply imap_ext.
  intros i s _. simpl. apply codeExample_mergeSection.
Qed.

Lemma cacheKey_inj p q (l l' : Language) :
  cacheKey p (code l) = cacheKey q (code l') -> p = q /\ l = l'.
Proof.
  unfold cacheKey. intros H.
  apply app_inj_2 in H as [-> H]; [|by destruct l, l'].
  split; [done|]. by destruct l, l'; vm_compute in H.
Qed.

Lemma mirrors_replace ds tc q d' :
  mirrors ds tc -> mirrors (<[q := d']> ds) (evict q tc).
Proof.
  intros Hm p lang t. rewrite evict_lookup.
  destruct (startsWith _ _) eqn:E; [done|]. intros Ht.
  destruct (Hm p lang t Ht) as (d & Hd & Hce).
  exists d. split; [|done]. rewrite lookup_insert_ne; [done|].
  intros ->. by rewrite startsWith_cacheKey in E.
Qed.

Lemma mirrors_refresh ds tc q r :
  mirrors ds tc ->
  mirrors (<[q := spread_with (at_key ds q) [("verification", r)]]> ds)
    (refresh q r tc).
Proof.
  intros Hm p lang t'. rewrite refresh_lookup.
  destruct (tc !! cacheKey p (code lang)) as [t|] eqn:Ht; [|done].
  simpl. intros [= <-].
  destruct (Hm p lang t Ht) as (d & Hd & Hce).
  assert (codeExamples
            (if startsWith (cacheKey p (code lang)) (q ++ [58])
             then spread_with t [("verification", r)] else t)
          = codeExamples d) as ->.
  { destruct (startsWith _ _); [|done].
    by rewrite codeExamples_spread_verification. }
  destruct (decide (q = p)) as [->|Hne].
  - rewrite lookup_insert_eq. eexists. split; [done|].
    unfold at_key. rewrite Hd. simpl.
    by rewrite codeExamples_spread_verification.
  - rewrite lookup_insert_ne by done. by exists d.
Qed.

Lemma mirrors_insert ds tc q l translated baseDoc :
  mirrors ds tc ->
  ds !! q = Some baseDoc ->
  codeExamples translated = codeExamples baseDoc ->
  mirrors ds (<[cacheKey q (code l) := translated]> tc).
Proof.
  intros Hm Hbase Hce p lang t.
  destruct (decide (cacheKey q (code l) = cacheKey p (code lang))) as [E|E].
  - rewrite E, lookup_insert_eq. intros [= <-].
    apply cacheKey_inj in E as [<- _]. by exists baseDoc.
  - rewrite lookup_insert_ne by done. apply Hm.
Qed.

Lemma processFile_mirrors st f fetched api now :
  mirrors (docState st) (translationCache st) ->
  mirrors (docState (processFile st f fetched api now))
    (translationCache (processFile st f fetched api now)).
Proof.
  intros Hm. unfold processFile.
  destruct (repoInfo st); [|done].
  destruct fetched; [done|]. simpl. by apply mirrors_replace.
Qed.

Lemma handleFileSelect_mirrors st f fetched api now :
  mirrors (docState st) (translationCache st) ->
  mirrors (docState (handleFileSelect st f fetched api now))
    (translationCache (handleFileSelect st f fetched api now)).
Proof.
  intros Hm. unfold handleFileSelect.
  destruct (type f); [|done].
  destruct (isStale _ _); [|done].
  by apply processFile_mirrors.
Qed.

Lemma handleVerify_mirrors st fetched api :
  mirrors (docState st) (translationCache st) ->
  mirrors (docState (handleVerify st fetched api))
    (translationCache (handleVerify st fetched api)).
Proof.
  intros Hm. unfold handleVerify.
  destruct (selectedFile st) as [f|]; [|done].
  destruct (repoInfo st); [|done].
  destruct (exampleToVerify _); [|done].
  destruct fetched; [done|]. simpl. by apply mirrors_refresh.
Qed.

Lemma handleTranslate_mirrors st lang api :
  mirrors (docState st) (translationCache st) ->
  mirrors (docState (handleTranslate st (code lang) api))
    (translationCache (handleTranslate st (code lang) api)).
Proof.
  intros Hm. unfold handleTranslate.
  destruct (selectedFile st) as [f|]; [|done].
  destruct (truthy (at_key (docState st) (path f))) eqn:Hb; [|done]. simpl.
  assert (exists baseDoc,
             docState st !! path f = Some baseDoc
             /\ at_key (docState st) (path f) = baseDoc)
    as (baseDoc & Hbase & ->).
  { unfold at_key in *. destruct (docState st !! path f); [eauto|done]. }
  clear Hb. destruct (str_eqb _ _); [done|].
  destruct (truthy (at_key (translationCache st) _)); [done|].
  destruct (translateDocumentation baseDoc (code lang)) as [awaiting|] eqn:Ht;
    [|done].
  simpl. eapply mirrors_insert; [done..|].
  by eapply translateDocumentation_codeExamples.
Qed.

Lemma handleApplyFix_mirrors st fixedCode st' :
  handleApplyFix st fixedCode = Some st' ->
  mirrors (docState st) (translationCache st) ->
  mirrors (docState st') (translationCache st').
Proof.
  unfold handleApplyFix. intros Hrun Hm.
  destruct (selectedFile st) as [f|]; [|by injection Hrun as <-].
  destruct (negb _); [by injection Hrun as <-|].
  destruct (applyFixDoc _ _) as [updatedDoc|]; [|done].
  injection Hrun as <-. simpl. by apply mirrors_replace.
Qed.

Lemma handle_mirrors st e st' :
  handle st e = Some st' ->
  mirrors (docState st) (translationCache st) ->
  mirrors (docState st') (translationCache st').
Proof.
  destruct e as [f fetched api now|fetched api|lang api|fixedCode]; simpl.
  - intros [= <-]. apply handleFileSelect_mirrors.
  - intros [= <-]. apply handleVerify_mirrors.
  - intros [= <-]. apply handleTranslate_mirrors.
  - apply handleApplyFix_mirrors.
Qed.

Lemma at_key_insert (m : gmap jsstring value) k v : at_key (<[k := v]> m) k = v.
Proof. unfold at_key. by rewrite lookup_insert_eq. Qed.

Lemma translateDocumentation_defined (doc : value) (lang : jsstring) l ps :
  get doc "sections" = Some (VArr l) ->
  mapM promptSection l = Some ps ->
  is_Some (translateDocumentation doc lang).
Proof.
  intros Hsec Hps. unfold translateDocumentation.
  assert (exists language summary,
             get doc "language" = Some language
             /\ get doc "summary" = Some summary) as (? & ? & -> & ->).
  { destruct doc; try done; by eexists _, _. }
  rewrite Hsec, Hps. by destruct (is_string _ _).
Qed.

Lemma translateDocumentation_calls doc lang awaiting :
  translateDocumentation doc lang = Some awaiting ->
  is_string (get_opt doc "language") lang = false ->
  exists request k, awaiting = AwaitModel request k.
Proof.
  unfold translateDocumentation, get_opt.
  destruct (get doc "language") as [language|]; [|done].
  destruct (get doc "summary") as [summary|]; [|done].
  destruct (get doc "sections") as [sections|]; [|done]. simpl.
  intros Hcall Hlang. rewrite Hlang in Hcall.
  destruct sections as [| | | | |l|]; try done.
  destruct (mapM promptSection l); [|done].
  injection Hcall as <-. eauto.
Qed.

(** The two halves of [handleTranslate], one right after the other, are the
    handler run from start to end. *)
Lemma handleTranslate_start_end st lang api :
  handleTranslate st lang api
  = match handleTranslateStart st lang with
    | (st1, Some flight) => handleTranslateEnd st1 flight api
    | (st1, None) => st1
    end.
Proof.
  unfold handleTranslate, handleTranslateStart.
  destruct (selectedFile st) as [f|]; [|done].
  destruct (negb _); [done|]. destruct (str_eqb _ _); [done|].
  destruct (truthy _); [done|].
  by destruct (translateDocumentation _ _) as [[v|request k]|].
Qed.

(** When the first half of [handleTranslate] leaves a call in flight, the
    call is the one [translateDocumentation] makes for the base document of
    the selected file as it is at the start. *)
Lemma handleTranslateStart_in_flight st f lang st1 flight :
  selectedFile st = Some f ->
  handleTranslateStart st lang = (st1, Some flight) ->
  st1 = set_status ST_TRANSLATING st
  /\ truthy (at_key (docState st) (path f)) = true
  /\ flightKey flight = cacheKey (path f) lang
  /\ translateDocumentation (at_key (docState st) (path f)) lang
     = Some (AwaitModel (flightRequest flight) (flightResume flight)).
Proof.
  unfold handleTranslateStart. intros ->.
  destruct (truthy (at_key (docState st) (path f))); [|done]. simpl.
  destruct (str_eqb _ _); [done|].
  destruct (truthy _); [done|].
  destruct (translateDocumentation _ _) as [[v|request k]|]; try done.
  by intros [= <- <-].
Qed.

(** C8: the cached translation does not always mirror the code examples of
    the canonical entry. When Apply AI Fix is clicked while a translation
    of the selected file is awaited, and the fix changes a code example,
    then once the translator has answered (or failed) the cache holds, for
    that file and language, a translation with the code examples of the
    document as it was before the fix, which are not those of the canonical
    entry: the eviction of [handleApplyFix] came before the entry was
    written. *)
Theorem C8_fix_during_translation_breaks_mirror (st : AppState) (f : FileNode)
  (lang : Language) (st1 : AppState) (flight : InFlight) (fixedCode : value)
  (st2 : AppState) (api : ApiOutcome) :
  selectedFile st = Some f ->
  onTranslateStart st (code lang) = (st1, Some flight) ->
  handleApplyFix st1 fixedCode = Some st2 ->
  codeExamples (at_key (docState st2) (path f))
  ≠ codeExamples (at_key (docState st) (path f)) ->
  let st3 := handleTranslateEnd st2 flight api in
  exists t d,
    translationCache st3 !! cacheKey (path f) (code lang) = Some t
    /\ docState st3 !! path f = Some d
    /\ applyFixDoc fixedCode (at_key (docState st) (path f)) = Some d
    /\ codeExamples t = codeExamples (at_key (docState st) (path f))
    /\ codeExamples t ≠ codeExamples d
    /\ ~ mirrors (docState st3) (translationCache st3).
Proof.
  intros Hf Hstart Hfix Hchange st3.
  unfold onTranslateStart in Hstart.
  destruct (handleTranslateStart st (code lang)) as [st1' flight'] eqn:Hhalf.
  injection Hstart as <- ->.
  destruct (handleTranslateStart_in_flight _ _ _ _ _ Hf Hhalf)
    as (-> & Hbase & Hkey & Hcall).
  unfold handleApplyFix in Hfix. simpl in Hfix.
  rewrite Hf, Hbase in Hfix. simpl in Hfix.
  destruct (applyFixDoc fixedCode (at_key (docState st) (path f)))
    as [d|] eqn:Hd; [|done].
  injection Hfix as <-. simpl in Hchange. rewrite at_key_insert in Hchange.
  assert (translationCache st3 !! cacheKey (path f) (code lang)
          = Some (flightResume flight api)) as Ht.
  { subst st3. unfold handleTranslateEnd. simpl.
    by rewrite Hkey, lookup_insert_eq. }
  assert (docState st3 !! path f = Some d) as Hdoc.
  { subst st3. unfold handleTranslateEnd. simpl. by rewrite lookup_insert_eq. }
  assert (codeExamples (flightResume flight api)
          = codeExamples (at_key (docState st) (path f))) as Hold.
  { apply (translateDocumentation_codeExamples _ (code lang) _ api Hcall). }
  exists (flightResume flight api), d.
  split; [done|]. split; [done|]. split; [done|]. split; [done|].
  split; [by rewrite Hold|].
  intros Hm. destruct (Hm (path f) lang _ Ht) as (d' & Hd' & Hce).
  rewrite Hdoc in Hd'. injection Hd' as <-. by rewrite Hold in Hce.
Qed.

Lemma C8_fix_during_translation_breaks_mirror_witness :
  exists st1 flight st2 t d,
    onTranslateStart st_failed (code es) = (st1, Some flight)
    /\ handleApplyFix st1 (VStr (lit "fixed")) = Some st2
    /\ translationCache (handleTranslateEnd st2 flight answer_es)
         !! cacheKey (path file_a) (code es) = Some t
    /\ docState (handleTranslateEnd st2 flight answer_es) !! path file_a
       = Some d
    /\ codeExamples t = [VStr (lit "e")]
    /\ codeExamples d = [VStr (lit "fixed")].
Proof.
  assert (selectedFile st_failed = Some file_a) as Hf by (by vm_compute).
  assert (exists doc,
            at_key (docState st_failed) (path file_a) = doc
            /\ truthy doc = true
            /\ is_string (get_opt doc "language") (code es) = false
            /\ codeExamples doc = [VStr (lit "e")]
            /\ at_key (translationCache st_failed)
                 (cacheKey (path file_a) (code es)) = VUndefined
            /\ exists l ps,
                 get doc "sections" = Some (VArr l)
                 /\ mapM promptSection l = Some ps)
    as (doc & Hdoc & Htruthy & Hlang & Hex & Hmiss & l & ps & Hl & Hps)
    by (vm_compute; eauto 10).
  destruct (translateDocumentation_defined doc (code es) l ps Hl Hps)
    as [awaiting Hcall].
  assert (exists request k, awaiting = AwaitModel request k)
    as (request & k & ->).
  { by apply (translateDocumentation_calls doc (code es)). }
  set (flight := InFlight_ (cacheKey (path file_a) (code es)) request k).
  set (st1 := setViewLanguage (code es) (set_status ST_TRANSLATING st_failed)).
  assert (onTranslateStart st_failed (code es) = (st1, Some flight)) as Hstart.
  { unfold onTranslateStart, handleTranslateStart.
    rewrite Hf. cbv zeta. rewrite Hdoc, Htruthy, Hmiss, Hcall.
    by vm_compute (str_eqb (code es) (lit "en")). }
  assert (is_Some (handleApplyFix st1 (VStr (lit "fixed")))) as [st2 Hfix]
    by (vm_compute; eauto).
  assert (codeExamples (at_key (docState st2) (path file_a))
          = [VStr (lit "fixed")]) as Hfixed.
  { assert (Some st2 = handleApplyFix st1 (VStr (lit "fixed"))) as Heq by done.
    vm_compute in Heq. injection Heq as ->. by vm_compute. }
  destruct (C8_fix_during_translation_breaks_mirror st_failed file_a es st1
              flight (VStr (lit "fixed")) st2 answer_es Hf Hstart Hfix)
    as (t & d & Ht & Hd & _ & Hold & _ & _).
  { rewrite Hfixed, Hdoc, Hex. by intros [=]. }
  exists st1, flight, st2, t, d.
  split; [exact Hstart|]. split; [exact Hfix|].
  split; [exact Ht|]. split; [exact Hd|].
  split; [by rewrite Hold, Hdoc, Hex|].
  assert (at_key (docState (handleTranslateEnd st2 flight answer_es))
            (path file_a) = d) as Hat by (unfold at_key; by rewrite Hd).
  by rewrite <- Hat.
Defined.

(** In that execution the viewer does offer the fix while the translation
    is awaited: it shows the base document, whose verification has failed
    with a fix, and calls [onApplyFix] with that fix. *)
Lemma fix_offered_while_translating :
  fixOffered
    (setViewLanguage (code es) (set_status ST_TRANSLATING st_failed))
  = Some (VStr (lit "fixed")).
Proof. by vm_compute. Qed.

(** ** Further properties of the code *)

(** *** The extraction of [cleanJson] *)

Lemma star_loop_any_nil fuel cap k :
  star_loop (rmatch (Cls (fun _ => true))) fuel [] cap k = k [] cap.
Proof. by destruct fuel. Qed.

Lemma star_loop_any_cons fuel d (s : jsstring) cap k :
  star_loop (rmatch (Cls (fun _ => true))) (S fuel) (d :: s) cap k
  = match star_loop (rmatch (Cls (fun _ => true))) fuel s cap k with
    | Some r => Some r
    | None => k (d :: s) cap
    end.
Proof.
  simpl.
  by assert ((length s <? S (length s))%nat = true) as ->
      by (apply Nat.ltb_lt; lia).
Qed.

Lemma star_any_no_close fuel (s : jsstring) cap k :
  125 ∉ s ->
  star_loop (rmatch (Cls (fun _ => true))) fuel s cap
    (fun s1 cap1 => rmatch (Chr 125) s1 cap1 k) = None.
Proof.
  revert s. induction fuel as [|fuel IH]; intros s Hs.
  - destruct s as [|d s]; [done|].
    apply not_elem_of_cons in Hs as [Hd _]. simpl.
    by destruct (N.eqb_spec d 125).
  - destruct s as [|d s]; [done|].
    apply not_elem_of_cons in Hs as [Hd Hs].
    rewrite star_loop_any_cons, IH by done. simpl.
    by destruct (N.eqb_spec d 125).
Qed.

Lemma star_any_last_close fuel (mid after : jsstring) cap :
  125 ∉ after ->
  (length (mid ++ 125%N :: after) <= fuel)%nat ->
  star_loop (rmatch (Cls (fun _ => true))) fuel (mid ++ 125 :: after) cap
    (fun s1 cap1 => rmatch (Chr 125) s1 cap1
                      (fun rest cap2 => Some (rest, cap2)))
  = Some (after, cap).
Proof.
  intros Hafter. revert fuel.
  induction mid as [|d mid IH]; intros fuel Hfuel.
  - destruct fuel as [|fuel]; [simpl in Hfuel; lia|].
    rewrite app_nil_l, star_loop_any_cons, star_any_no_close by done.
    done.
  - destruct fuel as [|fuel]; [simpl in Hfuel; lia|].
    rewrite <- app_comm_cons, star_loop_any_cons, IH; [done|].
    simpl in Hfuel. lia.
Qed.

Lemma match_here_object_not_open (s : jsstring) :
  head s ≠ Some 123 -> match_here re_object s = None.
Proof.
  destruct s as [|d s]; [done|]. simpl. intros Hd.
  unfold match_here, re_object. simpl.
  destruct (N.eqb_spec d 123) as [->|_]; done.
Qed.

Lemma match_here_object_no_close (s : jsstring) :
  125 ∉ s -> match_here re_object s = None.
Proof.
  destruct s as [|d s]; [done|]. intros [_ Hs]%not_elem_of_cons.
  unfold match_here, re_object. cbn [rmatch].
  destruct (d =? 123); [|done]. by apply star_any_no_close.
Qed.

Lemma exec_object_none (before rest : jsstring) :
  123 ∉ before -> 125 ∉ rest -> exec re_object (before ++ rest) = None.
Proof.
  intros Hb Hr. induction before as [|d before IH]; simpl.
  - induction rest as [|d rest IH]; simpl.
    + done.
    + rewrite match_here_object_no_close by done.
      apply IH. by apply not_elem_of_cons in Hr as [_ ?].
  - apply not_elem_of_cons in Hb as [Hd Hb].
    rewrite match_here_object_not_open by (simpl; congruence).
    by apply IH.
Qed.

Lemma exec_object_some (before mid after : jsstring) :
  123 ∉ before -> 125 ∉ after ->
  exec re_object (before ++ 123 :: mid ++ 125 :: after)
  = Some (123 :: mid ++ [125], None).
Proof.
  intros Hb Ha. induction before as [|d before IH]; simpl.
  - unfold match_here, re_object. cbn [rmatch app]. rewrite N.eqb_refl.
    rewrite star_any_last_close by done.
    do 2 f_equal.
    rewrite (cons_middle 125 mid after), app_assoc, length_app.
    replace (S (length (mid ++ [125%N]) + length after) - length after)%nat
      with (length (123%N :: mid ++ [125%N])) by (simpl; lia).
    by rewrite (app_comm_cons (mid ++ [125]) after 123), take_app_length.
  - apply not_elem_of_cons in Hb as [Hd Hb].
    rewrite match_here_object_not_open by (simpl; congruence).
    by apply IH.
Qed.

(** X1: when the text holds an opening brace and a closing brace after it,
    [cleanJson] returns the text from the first opening brace to the last
    closing brace, both included, whatever surrounds them. *)
Theorem cleanJson_first_to_last (before mid after : jsstring) :
  123 ∉ before -> 125 ∉ after ->
  cleanJson (before ++ 123 :: mid ++ 125 :: after) = 123 :: mid ++ [125].
Proof.
  intros Hb Ha. unfold cleanJson. by rewrite exec_object_some.
Qed.

Lemma cleanJson_first_to_last_witness :
  cleanJson (lit "Sure: " ++ 123 :: jq "'a':{'b':1}" ++ 125 :: lit " Done.")
  = 123 :: jq "'a':{'b':1}" ++ [125].
Proof.
  apply cleanJson_first_to_last.
  - apply (bool_decide_unpack _). by vm_compute.
  - apply (bool_decide_unpack _). by vm_compute.
Defined.

(** X2: when no closing brace follows an opening brace (no brace at all, or
    only closing braces before the first opening one), [cleanJson] returns
    the whole text trimmed. *)
Theorem cleanJson_without_object (before rest : jsstring) :
  123 ∉ before -> 125 ∉ rest ->
  cleanJson (before ++ rest) = trim (before ++ rest).
Proof.
  intros Hb Hr. unfold cleanJson. by rewrite exec_object_none.
Qed.

Lemma cleanJson_without_object_witness :
  cleanJson (lit " } no json { here ") = lit "} no json { here".
Proof.
  change (lit " } no json { here ") with (lit " } no json " ++ lit "{ here ").
  rewrite cleanJson_without_object; [by vm_compute|..].
  - apply (bool_decide_unpack _). by vm_compute.
  - apply (bool_decide_unpack _). by vm_compute.
Defined.

(** *** The repair of [repairAndParseJson] *)

Ltac not_in_list := apply (bool_decide_unpack _); by vm_compute.

Lemma count_char_app c (a b : jsstring) :
  count_char c (a ++ b) = (count_char c a + count_char c b)%nat.
Proof. unfold count_char. by rewrite filter_app, length_app. Qed.

Lemma count_char_repeat_same c n : count_char c (repeat_char c n) = n.
Proof.
  unfold count_char, repeat_char. induction n as [|n IH]; [done|].
  simpl. rewrite filter_cons_True by done. simpl. by rewrite IH.
Qed.

Lemma count_char_repeat_other c d n :
  d ≠ c -> count_char c (repeat_char d n) = 0%nat.
Proof.
  intros Hd. unfold count_char, repeat_char. induction n as [|n IH]; [done|].
  simpl. by rewrite filter_cons_False.
Qed.

Lemma count_char_single_same c : count_char c [c] = 1%nat.
Proof. apply (count_char_repeat_same c 1). Qed.

Lemma count_char_single_other c d : d ≠ c -> count_char c [d] = 0%nat.
Proof. apply (count_char_repeat_other c d 1). Qed.

Lemma odd_succ_even (q : nat) :
  (q mod 2 =? 0)%nat = false -> ((q + 1) mod 2 = 0)%nat.
Proof.
  intros H%Nat.eqb_neq.
  pose proof (Nat.mod_upper_bound q 2 ltac:(lia)) as Hlt.
  rewrite Nat.Div0.add_mod.
  assert (q mod 2 = 1)%nat as -> by lia. done.
Qed.

(** X3: [repairAndParseJson] returns what [JSON.parse] makes of the text,
    else what it makes of the repaired text, else [null]; and the repaired
    text, which only adds closers to the trimmed text without its final
    comma, has an even number of double quotes, no more opening brackets
    than closing ones and no more opening braces than closing ones. *)
Theorem repairText_balanced (jsonString : jsstring) :
  repairAndParseJson jsonString
  = match JSON.parse jsonString with
    | Some v => v
    | None => default VNull (JSON.parse (repairText jsonString))
    end
  /\ (exists quote brackets braces,
        repairText jsonString
        = (if endsWith (trim jsonString) (lit ",")
           then slice0_minus1 (trim jsonString) else trim jsonString)
          ++ repeat_char 34 quote ++ repeat_char 93 brackets
          ++ repeat_char 125 braces
        /\ (quote <= 1)%nat)
  /\ (count_char 34 (repairText jsonString) mod 2 = 0)%nat
  /\ (count_char 91 (repairText jsonString)
      <= count_char 93 (repairText jsonString))%nat
  /\ (count_char 123 (repairText jsonString)
      <= count_char 125 (repairText jsonString))%nat.
Proof.
  split.
  { unfold repairAndParseJson, repairText.
    destruct (JSON.parse jsonString); [done|]. simpl.
    by destruct (JSON.parse _). }
  unfold repairText.
  set (base := if endsWith (trim jsonString) (lit ",")
               then slice0_minus1 (trim jsonString) else trim jsonString).
  cbv zeta. split.
  { exists (if (count_char 34 base mod 2 =? 0)%nat then 0 else 1)%nat,
      (if (count_char 93 base <? count_char 91 base)%nat
       then count_char 91 base - count_char 93 base else 0)%nat,
      (if (count_char 125 base <? count_char 123 base)%nat
       then count_char 123 base - count_char 125 base else 0)%nat.
    split; [|by destruct (_ =? _)%nat; lia].
    destruct (count_char 34 base mod 2 =? 0)%nat;
      destruct (count_char 93 base <? count_char 91 base)%nat;
      destruct (count_char 125 base <? count_char 123 base)%nat;
      cbn [negb repeat_char replicate app];
      by rewrite ?app_nil_r, <- ?app_assoc. }
  destruct (count_char 34 base mod 2 =? 0)%nat eqn:Hq;
    destruct (count_char 93 base <? count_char 91 base)%nat eqn:Hb;
    destruct (count_char 125 base <? count_char 123 base)%nat eqn:Hc;
    cbn [negb];
    try apply Nat.eqb_eq in Hq; try apply odd_succ_even in Hq;
    try apply Nat.ltb_lt in Hb; try apply Nat.ltb_ge in Hb;
    try apply Nat.ltb_lt in Hc; try apply Nat.ltb_ge in Hc.
  all: rewrite ?count_char_app, ?count_char_repeat_same,
         ?(count_char_repeat_other 34 93), ?(count_char_repeat_other 34 125),
         ?(count_char_repeat_other 91 93), ?(count_char_repeat_other 91 125),
         ?(count_char_repeat_other 93 125), ?(count_char_repeat_other 123 93),
         ?(count_char_repeat_other 123 125), ?(count_char_repeat_other 125 93),
         ?(count_char_single_same 34), ?(count_char_single_other 91 34),
         ?(count_char_single_other 93 34), ?(count_char_single_other 123 34),
         ?(count_char_single_other 125 34) by done.
  all: rewrite ?Nat.add_0_r.
  all: repeat split; try lia; try done.
Qed.

(** *** The raw fallback and the scavenger *)

Lemma Forall_replace_all_from (P : N -> Prop) pat rep skip (s : jsstring) :
  Forall P rep -> Forall P s -> Forall P (replace_all_from pat rep skip s).
Proof.
  intros Hrep Hs. revert skip.
  induction Hs as [|c s Hc Hs IH]; intros skip; cbn [replace_all_from];
    [done|].
  destruct skip as [|n]; [|apply IH].
  destruct (startsWith (c :: s) pat).
  - apply Forall_app. split; [done|apply IH].
  - constructor; [done|apply IH].
Qed.

Lemma Forall_drop_space (P : N -> Prop) (s : jsstring) :
  Forall P s -> Forall P (drop_space s).
Proof.
  induction 1 as [|c s Hc Hs IH]; simpl; [done|].
  destruct (is_space c); [done|by constructor].
Qed.

Lemma Forall_rev_list (P : N -> Prop) (s : jsstring) :
  Forall P s -> Forall P (rev s).
Proof.
  induction 1 as [|c s Hc Hs IH]; simpl; [done|].
  apply Forall_app. split; [done|by constructor].
Qed.

Lemma Forall_trim (P : N -> Prop) (s : jsstring) :
  Forall P s -> Forall P (trim s).
Proof.
  intros Hs. unfold trim.
  by apply Forall_rev_list, Forall_drop_space, Forall_rev_list,
    Forall_drop_space.
Qed.

(** X4: the document of [fallbackRaw] carries the file name, and its single
    section, titled Analysis, has a content of at most 1003 code units in
    which no brace and no double quote is left. *)
Theorem fallbackRaw_content_clean (text fileName : jsstring) :
  get_opt (fallbackRaw text fileName) "filePath" = VStr fileName
  /\ exists s content,
      sections_of (fallbackRaw text fileName) = [s]
      /\ get_opt s "title" = VStr (lit "Analysis")
      /\ get_opt s "content" = VStr content
      /\ len content <= 1003
      /\ Forall (fun c => c ≠ 123 /\ c ≠ 34 /\ c ≠ 125) content.
Proof.
  split; [unfold fallbackRaw; by read_props|].
  unfold fallbackRaw, sections_of. read_props.
  eexists _, _. split; [done|]. read_props.
  split; [done|]. split; [done|].
  set (cleanText := trim _).
  assert (Forall (fun c => c ≠ 123 /\ c ≠ 34 /\ c ≠ 125) cleanText) as Hclean.
  { apply Forall_trim, Forall_replace_all_from; [done|].
    apply Forall_forall. intros c [Hc _]%list_elem_of_filter.
    repeat split; intros ->; apply Hc; auto. }
  split.
  - unfold len, slice0. rewrite length_app, length_take.
    destruct (1000 <? _); simpl length; lia.
  - apply Forall_app. split; [by apply Forall_take|].
    destruct (1000 <? _); [|done].
    repeat constructor; done.
Qed.

Lemma match_here_title_not_quote (s : jsstring) :
  head s ≠ Some 34 -> match_here re_title_marker s = None.
Proof.
  destruct s as [|d s]; [done|]. simpl. intros Hd.
  unfold match_here, re_title_marker. cbn [rmatch].
  destruct (N.eqb_spec d 34) as [->|_]; done.
Qed.

Lemma split_from_no_quote (s cur : jsstring) :
  34 ∉ s -> split_from re_title_marker 0 cur s = [rev cur ++ s].
Proof.
  revert cur. induction s as [|d s IH]; intros cur Hs.
  - simpl. by rewrite app_nil_r.
  - apply not_elem_of_cons in Hs as [Hd Hs].
    cbn [split_from].
    rewrite match_here_title_not_quote by (simpl; congruence).
    rewrite IH by done. simpl. by rewrite <- app_assoc.
Qed.

(** X5: a text without any double quote is never scavenged:
    [resilientParse] returns [null], so the pipeline ends at the strict tier
    or at the raw fallback, never at the recovered tier. *)
Theorem resilientParse_needs_quotes (text fileName : jsstring) :
  34 ∉ text ->
  resilientParse text fileName = VNull
  /\ fst (parseResponse text fileName) ≠ Recovered
  /\ (truthy (repairAndParseJson (cleanJson text)) = false ->
      parseResponse text fileName
      = (RawFallback,
         spread_with (fallbackRaw text fileName)
           [("language", VStr (lit "en"))])).
Proof.
  intros Hq.
  assert (resilientParse text fileName = VNull) as Hnull.
  { unfold resilientParse.
    assert (split re_title_marker text = [text]) as ->; [|done].
    unfold split. destruct text as [|d text]; [done|].
    by rewrite split_from_no_quote. }
  split; [done|]. unfold parseResponse. rewrite Hnull.
  destruct (truthy (repairAndParseJson (cleanJson text))); simpl; by auto.
Qed.

Lemma resilientParse_needs_quotes_witness :
  parseResponse (lit "I cannot document this file.") (lit "a.ts")
  = (RawFallback,
     spread_with (fallbackRaw (lit "I cannot document this file.") (lit "a.ts"))
       [("language", VStr (lit "en"))]).
Proof.
  assert (34 ∉ lit "I cannot document this file.") as H by not_in_list.
  apply (resilientParse_needs_quotes _ (lit "a.ts") H). by vm_compute.
Defined.

Lemma indexOf_take c (s : jsstring) n :
  indexOf c s = Some n -> c ∉ take n s.
Proof.
  revert n. induction s as [|d s IH]; intros n; simpl; [done|].
  destruct (N.eqb_spec d c) as [->|Hd].
  - intros [= <-]. simpl. apply not_elem_of_nil.
  - destruct (indexOf c s) as [m|]; [|done]. simpl. intros [= <-]. simpl.
    apply not_elem_of_cons. split; [congruence|by apply IH].
Qed.

(** X6: what [resilientParse] recovers. Every recovered section has a
    title without any double quote, a string content, and a code example
    that is a string or absent; when the result is not [null] it carries
    the file name, a string summary and at least one section. *)
Theorem resilientParse_recovered (text fileName : jsstring) :
  (forall s,
     s ∈ sections_of (resilientParse text fileName) ->
     exists title content,
       get_opt s "title" = VStr title /\ (34 ∉ title)
       /\ get_opt s "content" = VStr content
       /\ (get_opt s "codeExample" = VUndefined
           \/ exists code, get_opt s "codeExample" = VStr code))
  /\ (resilientParse text fileName ≠ VNull ->
      get_opt (resilientParse text fileName) "filePath" = VStr fileName
      /\ (exists summary,
            get_opt (resilientParse text fileName) "summary" = VStr summary)
      /\ sections_of (resilientParse text fileName) ≠ []).
Proof.
  unfold resilientParse.
  set (sections := omap scavenge_section (tail (split re_title_marker text))).
  destruct (0 <? length sections)%nat eqn:Hlen.
  - split.
    + unfold sections_of. read_props. intros s Hs.
      apply list_elem_of_omap in Hs as (part & _ & Hs).
      unfold scavenge_section in Hs.
      destruct (indexOf 34 part) as [titleEnd|] eqn:Hidx; [|done].
      injection Hs as <-.
      assert (exists content,
                 match exec (re_key_string "content") part with
                 | Some m => group1 m
                 | None => VStr (lit "Content missing")
                 end = VStr content) as [content ->].
      { destruct (exec (re_key_string "content") part) as [m|] eqn:E;
          [|by eexists].
        destruct (group1_string _ _ _ E) as [c ->]. by eexists. }
      exists (take titleEnd part), content. read_props.
      split; [done|]. split; [by apply indexOf_take|]. split; [done|].
      destruct (exec (re_key_string "codeExample") part) as [m'|] eqn:E';
        [|by left].
      destruct (group1_string _ _ _ E') as [c' ->]. right. by eexists.
    + intros _. split; [by read_props|]. split.
      * read_props.
        destruct (exec (re_key_string "summary") text) as [m|] eqn:E.
        -- destruct (group1_string _ _ _ E) as [c ->]. by eexists.
        -- by eexists.
      * unfold sections_of. read_props.
        apply Nat.ltb_lt in Hlen. intros Heq. rewrite Heq in Hlen.
        simpl in Hlen. lia.
  - split; [|done]. intros s Hs. by apply elem_of_nil in Hs.
Qed.

(** *** The three calls of the model *)

(** X7: [generateDocumentation] always resolves. Its result is one of the
    three fixed documents (file skipped, analysis blocked, service error) or
    the parse of a non-empty response; in every case [sections] is an array
    and [language] is en, and the three fixed documents are Documents that
    carry the file name. When the model is called it is sent the file name
    and at most the first 10000 code units of the content. *)
Theorem generateDocumentation_outcomes (fileName fileContent : jsstring)
  (api : ApiOutcome) :
  let d := resume (generateDocumentation fileName fileContent) api in
  (d = minifiedDoc fileName \/ d = blockedDoc fileName
   \/ d = serviceErrorDoc fileName
   \/ exists c text,
       api = ApiResponds (Some (c :: text))
       /\ d = snd (parseResponse (c :: text) fileName))
  /\ (exists l, get_opt d "sections" = VArr l)
  /\ get_opt d "language" = VStr (lit "en")
  /\ (forall placeholder,
        placeholder = minifiedDoc fileName \/ placeholder = blockedDoc fileName
        \/ placeholder = serviceErrorDoc fileName ->
        documentb placeholder = true
        /\ get_opt placeholder "filePath" = VStr fileName)
  /\ (forall request k,
        generateDocumentation fileName fileContent = AwaitModel request k ->
        request = [VStr (take (N.to_nat 10000) fileContent); VStr fileName]
        /\ len (take (N.to_nat 10000) fileContent) <= 10000).
Proof.
  intros d.
  assert (forall placeholder,
             placeholder = minifiedDoc fileName
             \/ placeholder = blockedDoc fileName
             \/ placeholder = serviceErrorDoc fileName ->
             (exists l, get_opt placeholder "sections" = VArr l)
             /\ get_opt placeholder "language" = VStr (lit "en")
             /\ documentb placeholder = true
             /\ get_opt placeholder "filePath" = VStr fileName) as Hfixed.
  { intros placeholder [H|[H|H]]; subst placeholder;
      unfold documentb, sectionb, minifiedDoc, blockedDoc, serviceErrorDoc;
      read_props; (split; [by eexists|]); repeat split; try done;
      cbn [forallb]; by read_props. }
  assert (d = minifiedDoc fileName \/ d = blockedDoc fileName
          \/ d = serviceErrorDoc fileName
          \/ exists c text,
              api = ApiResponds (Some (c :: text))
              /\ d = snd (parseResponse (c :: text) fileName)) as Hcase.
  { subst d. unfold generateDocumentation.
    destruct (existsb _ _); [by left|]. simpl.
    destruct api as [message|[[|c text]|]]; simpl; eauto 10. }
  split; [done|].
  assert ((exists l, get_opt d "sections" = VArr l)
          /\ get_opt d "language" = VStr (lit "en")) as [Hsec Hlang].
  { destruct Hcase as [H|[H|[H|(c & text & _ & H)]]];
      try (destruct (Hfixed d) as (? & ? & _); by auto).
    rewrite H.
    destruct (parseResponse_shape (c :: text) fileName) as (? & ? & _).
    done. }
  split; [done|]. split; [done|]. split.
  - intros placeholder Hp. by destruct (Hfixed placeholder Hp) as (_ & _ & ?).
  - intros request k. unfold generateDocumentation.
    destruct (existsb _ _); [done|]. intros [= <- _]. split; [done|].
    unfold len. rewrite length_take. lia.
Qed.

(** X8: the verdict of [verifyCodeExample] is SUCCESS or FAILED, whatever
    the oracle does; it is SUCCESS exactly when the oracle answers a
    non-empty text whose extraction parses to a value whose [status] is the
    string SUCCESS, and then the logs and the fixed code are the oracle's,
    as they are. *)
Theorem verifyCodeExample_verdict (fileName sourceCode : jsstring)
  (exampleCode : value) (api : ApiOutcome) :
  let r := resume (verifyCodeExample fileName sourceCode exampleCode) api in
  (get_opt r "status" = SUCCESS \/ get_opt r "status" = FAILED)
  /\ (get_opt r "status" = SUCCESS
      <-> exists c text data,
          api = ApiResponds (Some (c :: text))
          /\ JSON.parse (cleanJson (c :: text)) = Some data
          /\ get data "status" = Some SUCCESS)
  /\ (forall c text data,
        api = ApiResponds (Some (c :: text)) ->
        JSON.parse (cleanJson (c :: text)) = Some data ->
        is_Some (get data "status") ->
        get_opt r "logs" = get_opt data "logs"
        /\ get_opt r "fixedCode" = get_opt data "fixedCode").
Proof.
  intros r. subst r. simpl.
  destruct api as [message|[[|c text]|]]; simpl.
  - split; [by right|]. split; [|done].
    split; [by intros ?|by intros (? & ? & ? & ? & _)].
  - split; [by right|]. split; [|done].
    split; [by intros ?|by intros (? & ? & ? & ? & _)].
  - destruct (JSON.parse (cleanJson (c :: text))) as [data|] eqn:Hparse.
    + destruct (get data "status") as [status|] eqn:Hstatus.
      * assert (get data "logs" = Some (get_opt data "logs")
                /\ get data "fixedCode" = Some (get_opt data "fixedCode"))
          as [-> ->].
        { unfold get_opt. by destruct data. }
        read_props.
        destruct (is_string status (lit "SUCCESS")) eqn:Hs.
        -- assert (status = SUCCESS) as ->.
           { destruct status; try done. simpl in Hs.
             by apply str_eqb_true in Hs as ->. }
           split; [by left|]. split.
           ++ split; [|done]. intros _. by exists c, text, data.
           ++ intros c' text' data' [= <- <-] Hp _.
              rewrite Hparse in Hp. injection Hp as <-. by read_props.
        -- split; [by right|]. split.
           ++ split; [done|].
              intros (c' & text' & data' & [= <- <-] & Hp & Hst).
              rewrite Hparse in Hp; injection Hp as <-.
              rewrite Hstatus in Hst. injection Hst as ->.
              simpl in Hs. by rewrite str_eqb_refl in Hs.
           ++ intros c' text' data' [= <- <-] Hp _.
              rewrite Hparse in Hp. injection Hp as <-. by read_props.
      * split; [by right|]. split.
        -- split; [done|].
           intros (c' & text' & data' & [= <- <-] & Hp & Hst).
              rewrite Hparse in Hp; injection Hp as <-.
           by rewrite Hstatus in Hst.
        -- intros c' text' data' [= <- <-] Hp [? Hsome].
           rewrite Hparse in Hp. injection Hp as <-. congruence.
    + split; [by right|]. split.
      * split; [done|].
        intros (c' & text' & data' & [= <- <-] & Hp & _). congruence.
      * intros c' text' data' [= <- <-] Hp. congruence.
  - split; [by right|]. split; [|done].
    split; [by intros ?|by intros (? & ? & ? & ? & _)].
Qed.

Lemma doc_a_translatable (lang : jsstring) :
  is_Some (translateDocumentation doc_a lang).
Proof.
  assert (exists l ps,
            get doc_a "sections" = Some (VArr l)
            /\ mapM promptSection l = Some ps) as (l & ps & Hl & Hps)
    by (vm_compute; eauto).
  by apply (translateDocumentation_defined doc_a lang l ps).
Qed.

Lemma translateDocumentation_failure (doc : value) (lang : jsstring)
  (awaiting : Awaiting) (api : ApiOutcome) :
  translateDocumentation doc lang = Some awaiting ->
  (exists message, api = ApiThrows message)
  \/ (exists t, api = ApiResponds t /\ response_text t = None)
  \/ (exists t text,
         api = ApiResponds t /\ response_text t = Some text
         /\ truthy (repairAndParseJson (cleanJson text)) = false) ->
  resume awaiting api = doc.
Proof.
  unfold translateDocumentation, get_opt.
  destruct (get doc "language") as [language|]; [|done].
  destruct (get doc "summary") as [summary|]; [|done].
  destruct (get doc "sections") as [sections|]; [|done]. simpl.
  destruct (is_string language lang).
  { by intros [= <-]. }
  destruct sections as [| | | | |l|]; try done.
  destruct (mapM promptSection l); [|done].
  intros [= <-]. simpl.
  intros [[message ->]|[(t & -> & Ht)|(t & text & -> & Ht & Hparsed)]].
  - done.
  - by rewrite Ht.
  - by rewrite Ht, Hparsed.
Qed.

Lemma translateDocumentation_same_language (doc : value) (lang : jsstring)
  (awaiting : Awaiting) :
  translateDocumentation doc lang = Some awaiting ->
  is_string (get_opt doc "language") lang = true ->
  awaiting = Return doc.
Proof.
  unfold translateDocumentation, get_opt.
  destruct (get doc "language") as [language|]; [|done].
  destruct (get doc "summary") as [summary|]; [|done].
  destruct (get doc "sections") as [sections|]; [|done]. simpl.
  intros H Hsame. rewrite Hsame in H. by injection H as <-.
Qed.

(** X9: [translateDocumentation] makes no call when the document is
    already in the target language, and whenever the translation fails (the
    call throws, the response has no text, or its text parses to nothing
    even after repair) it resolves to the document it was given, unchanged:
    the failure is not reported. *)
Theorem translateDocumentation_falls_back (doc : value) (lang : jsstring)
  (awaiting : Awaiting) (api : ApiOutcome) :
  translateDocumentation doc lang = Some awaiting ->
  (is_string (get_opt doc "language") lang = true -> awaiting = Return doc)
  /\ ((exists message, api = ApiThrows message)
      \/ (exists t, api = ApiResponds t /\ response_text t = None)
      \/ (exists t text,
             api = ApiResponds t /\ response_text t = Some text
             /\ truthy (repairAndParseJson (cleanJson text)) = false) ->
      resume awaiting api = doc).
Proof.
  intros Htr. split.
  - by apply translateDocumentation_same_language.
  - by apply (translateDocumentation_failure doc lang).
Qed.

Lemma translateDocumentation_falls_back_witness :
  exists awaiting,
    translateDocumentation doc_a (code fr) = Some awaiting
    /\ resume awaiting (ApiThrows (lit "network")) = doc_a.
Proof.
  destruct (doc_a_translatable (code fr)) as [awaiting Htr].
  exists awaiting. split; [exact Htr|].
  apply (translateDocumentation_falls_back doc_a (code fr) awaiting
           (ApiThrows (lit "network")) Htr).
  left. by eexists.
Defined.

(** X10: a translation that succeeds. The result has the target language
    and the summary of the answer, whatever that is (an answer without
    summary leaves the summary undefined); it has the sections of the
    document, one for one, with their code examples; a section the answer
    has no counterpart for keeps its title and content, and a non-empty
    string title of the answer replaces the title; every other property of
    the document (fingerprint, verification, file path) is kept. *)
Theorem translateDocumentation_merges (doc : value) (lang : jsstring)
  (awaiting : Awaiting) (t : option jsstring) (text : jsstring) :
  translateDocumentation doc lang = Some awaiting ->
  is_string (get_opt doc "language") lang = false ->
  response_text t = Some text ->
  truthy (repairAndParseJson (cleanJson text)) = true ->
  let parsed := repairAndParseJson (cleanJson text) in
  let d := resume awaiting (ApiResponds t) in
  get_opt d "language" = VStr lang
  /\ get_opt d "summary" = get_opt parsed "summary"
  /\ length (sections_of d) = length (sections_of doc)
  /\ codeExamples d = codeExamples doc
  /\ (forall i s,
        sections_of doc !! i = Some s ->
        exists s',
          sections_of d !! i = Some s'
          /\ (forall answer,
                get_opt parsed "sections" = VArr answer ->
                answer !! i = None ->
                get_opt s' "title" = get_opt s "title"
                /\ get_opt s' "content" = get_opt s "content")
          /\ (forall answer ts c title,
                get_opt parsed "sections" = VArr answer ->
                answer !! i = Some ts ->
                get_opt ts "title" = VStr (c :: title) ->
                get_opt s' "title" = VStr (c :: title)))
  /\ (forall k,
        k ≠ lit "summary" -> k ≠ lit "sections" -> k ≠ lit "language" ->
        lookup_prop k (own_props d) = lookup_prop k (own_props doc)).
Proof.
  intros Htr Hlang Ht Hparsed. cbv zeta.
  pose proof (translateDocumentation_codeExamples doc lang awaiting
                (ApiResponds t) Htr) as Hce.
  set (parsed := repairAndParseJson (cleanJson text)) in *.
  revert Htr Hce. unfold translateDocumentation. unfold get_opt in Hlang.
  destruct (get doc "language") as [language|]; [|done].
  destruct (get doc "summary") as [summary|]; [|done].
  destruct (get doc "sections") as [sections|] eqn:Hsec; [|done].
  simpl in Hlang. rewrite Hlang.
  destruct sections as [| | | | |l|]; try done.
  destruct (mapM promptSection l); [|done].
  intros [= <-]. simpl. rewrite Ht. fold parsed. rewrite Hparsed.
  intros Hce.
  assert (sections_of doc = l) as Hdoc.
  { unfold sections_of, get_opt. by rewrite Hsec. }
  assert (sections_of
            (spread_with doc
               [("summary", get_opt parsed "summary");
                ("sections", VArr (imap (mergeSection parsed) l));
                ("language", VStr lang)])
          = imap (mergeSection parsed) l) as Hd.
  { unfold sections_of. by read_props. }
  rewrite Hd, Hdoc.
  split; [by read_props|]. split; [by read_props|].
  split; [by rewrite length_imap|]. split; [done|]. split.
  - intros i s Hs. exists (mergeSection parsed i s).
    split; [by rewrite list_lookup_imap, Hs|].
    unfold mergeSection. split.
    + intros answer Ha Hi. rewrite Ha. simpl. rewrite Hi. simpl.
      split; by read_props.
    + intros answer ts c title Ha Hi Hts. rewrite Ha. simpl. rewrite Hi.
      simpl. read_props. fold (get_opt ts "title"). by rewrite Hts.
  - intros k H1 H2 H3. cbn [own_props spread_with fold_left fst snd].
    by rewrite !lookup_set_prop_ne.
Qed.

Lemma translateDocumentation_merges_witness :
  exists awaiting,
    translateDocumentation doc_a (code fr) = Some awaiting
    /\ get_opt
         (resume awaiting
            (ApiResponds (Some (jq "{'summary':'Additionne.','sections':[{'title':'ajouter'}]}"))))
         "language"
       = VStr (code fr).
Proof.
  destruct (doc_a_translatable (code fr)) as [awaiting Htr].
  exists awaiting. split; [exact Htr|].
  apply (translateDocumentation_merges doc_a (code fr) awaiting
           (Some (jq "{'summary':'Additionne.','sections':[{'title':'ajouter'}]}"))
           (jq "{'summary':'Additionne.','sections':[{'title':'ajouter'}]}")
           Htr).
  - by vm_compute.
  - by vm_compute.
  - by vm_compute.
Defined.

(** *** The handlers, composed *)

Lemma at_key_Some (m : gmap jsstring value) k v :
  m !! k = Some v -> at_key m k = v.
Proof. unfold at_key. by intros ->. Qed.

Lemma at_key_truthy (m : gmap jsstring value) k :
  truthy (at_key m k) = true -> m !! k = Some (at_key m k).
Proof. unfold at_key. by destruct (m !! k). Qed.







(** X13: a handler run on the file of path [p] changes the canonical entry
    of no other path, and changes no cached translation but those whose key
    starts with [p] and a colon; when no file is selected, verifying,
    translating and fixing change neither cache. *)
Theorem handle_frame (st : AppState) (e : Event) (st' : AppState) :
  handle st e = Some st' ->
  (forall q, touched st e ≠ Some q -> docState st' !! q = docState st !! q)
  /\ (forall key,
        (forall p, touched st e = Some p ->
                   startsWith key (p ++ [58]) = false) ->
        translationCache st' !! key = translationCache st !! key).
Proof.
  destruct e as [f fetched api now|fetched api|lang api|fixedCode]; simpl.
  - intros [= <-]. unfold handleFileSelect, processFile.
    destruct (type f); [|done].
    destruct (isStale _ _); [|done]. simpl.
    destruct (repoInfo st); [|done].
    destruct fetched as [message|content]; [done|]. simpl. split.
    + intros q Hq. rewrite lookup_insert_ne; [done|congruence].
    + intros key Hkey. by rewrite evict_lookup, (Hkey (path f)).
  - intros [= <-]. unfold handleVerify.
    destruct (selectedFile st) as [f|]; [|done].
    destruct (repoInfo st); [|done].
    destruct (exampleToVerify _); [|done].
    destruct fetched as [message|src]; [done|]. simpl. split.
    + intros q Hq. rewrite lookup_insert_ne; [done|congruence].
    + intros key Hkey. rewrite refresh_lookup, (Hkey (path f)) by done.
      by destruct (translationCache st !! key).
  - intros [= <-]. unfold onTranslateRequest, handleTranslate.
    destruct (selectedFile st) as [f|]; [|done].
    destruct (negb _); [done|]. destruct (str_eqb _ _); [done|].
    destruct (truthy _); [done|].
    destruct (translateDocumentation _ _); [|done]. simpl.
    split; [done|]. intros key Hkey.
    rewrite lookup_insert_ne; [done|]. intros <-.
    specialize (Hkey (path f) eq_refl).
    by rewrite startsWith_cacheKey in Hkey.
  - unfold handleApplyFix.
    destruct (selectedFile st) as [f|]; [|by intros [= <-]].
    destruct (negb _); [by intros [= <-]|].
    destruct (applyFixDoc _ _); [|done]. intros [= <-]. simpl. split.
    + intros q Hq. rewrite lookup_insert_ne; [done|congruence].
    + intros key Hkey. by rewrite evict_lookup, (Hkey (path f)).
Qed.

Lemma handle_frame_witness :
  exists st',
    handle st_a (ApplyFix (VStr (lit "add(2, 3)"))) = Some st'
    /\ docState st' !! lit "src/b.ts" = docState st_a !! lit "src/b.ts".
Proof.
  assert (is_Some (handle st_a (ApplyFix (VStr (lit "add(2, 3)")))))
    as [st' Hrun] by (vm_compute; eauto).
  exists st'. split; [exact Hrun|].
  destruct (handle_frame st_a (ApplyFix (VStr (lit "add(2, 3)"))) st' Hrun)
    as [H _].
  apply H. by vm_compute.
Defined.

Lemma set_prop_present k v (ps : props) :
  k ∈ ps.*1 -> lookup_prop k ps = v -> set_prop k v ps = ps.
Proof.
  induction ps as [|[k' v'] ps IH]; simpl.
  - by intros ?%elem_of_nil.
  - intros Hin Hv. destruct (str_eqb k' k) eqn:E.
    + apply str_eqb_true in E. by subst.
    + f_equal. apply IH; [|done].
      apply elem_of_cons in Hin as [->|?]; [|done].
      by rewrite str_eqb_refl in E.
Qed.

Lemma set_prop_key k v (ps : props) : k ∈ (set_prop k v ps).*1.
Proof.
  induction ps as [|[k' v'] ps IH]; simpl.
  - apply list_elem_of_here.
  - destruct (str_eqb k' k); simpl.
    + apply list_elem_of_here.
    + by apply list_elem_of_further.
Qed.

Lemma set_prop_keeps_key k k' v (ps : props) :
  k' ∈ ps.*1 -> k' ∈ (set_prop k v ps).*1.
Proof.
  induction ps as [|[k0 v0] ps IH]; simpl.
  - by intros ?%elem_of_nil.
  - intros Hin. destruct (str_eqb k0 k) eqn:E; simpl.
    + apply str_eqb_true in E as <-. done.
    + apply elem_of_cons in Hin as [->|?].
      * apply list_elem_of_here.
      * by apply list_elem_of_further, IH.
Qed.

Lemma fixSection_twice fixedCode s s1 :
  fixSection fixedCode s = Some s1 -> fixSection fixedCode s1 = Some s1.
Proof.
  unfold fixSection.
  destruct (get s "codeExample") as [c|] eqn:Hc; [|done]. simpl.
  destruct (truthy c) eqn:Ht; intros [= <-].
  - destruct s as [| | | | | |ps]; simpl in Hc;
      try (injection Hc as <-; done); try done.
    simpl. rewrite lookup_set_prop_eq.
    destruct (truthy fixedCode); [|done].
    unfold spread_with. simpl. do 2 f_equal.
    apply set_prop_present; [apply set_prop_key|apply lookup_set_prop_eq].
  - by rewrite Hc; simpl; rewrite Ht.
Qed.

Lemma mapM_fixSection_twice fixedCode l l1 :
  mapM (fixSection fixedCode) l = Some l1 ->
  mapM (fixSection fixedCode) l1 = Some l1.
Proof.
  intros H%mapM_Some. apply mapM_Some.
  induction H as [|s s1 l l1 Hs _ IH]; constructor; [|done].
  by eapply fixSection_twice.
Qed.

Lemma applyFixDoc_twice fixedCode doc d1 :
  applyFixDoc fixedCode doc = Some d1 ->
  applyFixDoc fixedCode d1 = Some d1.
Proof.
  unfold applyFixDoc.
  destruct (or_else (get_opt doc "sections") (VArr [])) as [| | | | |l|];
    try done.
  destruct (mapM (fixSection fixedCode) l) as [l1|] eqn:Hl; [|done].
  simpl. intros [= <-].
  rewrite get_opt_spread_with. cbn [fold_left fst snd].
  rewrite lookup_set_prop_ne by lit_neq. rewrite lookup_set_prop_eq.
  unfold or_else. simpl.
  rewrite (mapM_fixSection_twice _ _ _ Hl). simpl.
  unfold spread_with. cbn [fold_left fst snd own_props]. do 2 f_equal.
  rewrite (set_prop_present (lit "sections")).
  - apply set_prop_present; [apply set_prop_key|apply lookup_set_prop_eq].
  - apply set_prop_keeps_key, set_prop_key.
  - rewrite lookup_set_prop_ne by lit_neq. apply lookup_set_prop_eq.
Qed.

Lemma evict_twice (p : jsstring) (tc : gmap jsstring value) :
  evict p (evict p tc) = evict p tc.
Proof.
  apply map_eq. intros key. rewrite !evict_lookup.
  by destruct (startsWith _ _).
Qed.

(** X14: applying the same fix twice is applying it once: the second run
    of [handleApplyFix] leaves the state as the first one made it. *)
Theorem handleApplyFix_twice (st : AppState) (fixedCode : value)
  (st1 : AppState) :
  handleApplyFix st fixedCode = Some st1 ->
  handleApplyFix st1 fixedCode = Some st1.
Proof.
  unfold handleApplyFix at 1.
  destruct (selectedFile st) as [f|] eqn:Hf.
  2: { intros [= <-]. unfold handleApplyFix. by rewrite Hf. }
  destruct (truthy (at_key (docState st) (path f))) eqn:Hdoc; simpl.
  2: { intros [= <-]. unfold handleApplyFix. by rewrite Hf, Hdoc. }
  destruct (applyFixDoc fixedCode (at_key (docState st) (path f)))
    as [d1|] eqn:Hfix; [|done].
  simpl. intros [= <-]. unfold handleApplyFix. simpl.
  rewrite Hf, at_key_insert.
  assert (truthy d1 = true) as ->.
  { unfold applyFixDoc in Hfix. destruct (or_else _ _); try done.
    destruct (mapM _ _); [|done]. by injection Hfix as <-. }
  simpl. rewrite (applyFixDoc_twice _ _ _ Hfix). simpl.
  by rewrite insert_insert_eq, evict_twice.
Qed.

Lemma handleApplyFix_twice_witness :
  exists st1,
    handleApplyFix st_a (VStr (lit "add(2, 3)")) = Some st1
    /\ handleApplyFix st1 (VStr (lit "add(2, 3)")) = Some st1.
Proof.
  assert (is_Some (handleApplyFix st_a (VStr (lit "add(2, 3)"))))
    as [st1 Hrun] by (vm_compute; eauto).
  exists st1. split; [exact Hrun|].
  exact (handleApplyFix_twice st_a (VStr (lit "add(2, 3)")) st1 Hrun).
Defined.




(** *** Folder navigation *)

Lemma startsWith_spec (s t : jsstring) :
  startsWith s t = true <-> exists r, s = t ++ r.
Proof.
  revert s. induction t as [|c t IH]; intros s.
  - split; [by exists s|by destruct s].
  - destruct s as [|d s]; simpl.
    + split; [done|]. by intros [r ?].
    + rewrite andb_true_iff, N.eqb_eq, IH. split.
      * intros [-> [r ->]]. by exists r.
      * intros [r [= -> ->]]. split; [done|]. by exists r.
Qed.

Lemma startsWith_nil (s : jsstring) : startsWith s [] = true.
Proof. by destruct s. Qed.

Lemma includes_char (c : N) (s : jsstring) :
  includes s [c] = false <-> c ∉ s.
Proof.
  induction s as [|d s IH]; simpl.
  - split; [intros _; apply not_elem_of_nil|done].
  - rewrite startsWith_nil, andb_true_r, orb_false_iff, IH, not_elem_of_cons, N.eqb_neq.
    tauto.
Qed.

Lemma includes_app (a s t : jsstring) :
  includes s t = true -> includes (a ++ s) t = true.
Proof.
  intros H. induction a as [|c a IH]; [done|].
  simpl. rewrite IH. apply orb_true_r.
Qed.

Lemma split_char_from_plain (c : N) (cur s : jsstring) :
  c ∉ s -> split_char_from c cur s = [rev cur ++ s].
Proof.
  revert cur. induction s as [|d s IH]; intros cur Hc; simpl.
  - by rewrite app_nil_r.
  - apply not_elem_of_cons in Hc as [Hd Hs].
    apply not_eq_sym, N.eqb_neq in Hd. rewrite Hd, IH by done.
    simpl. by rewrite <- app_assoc.
Qed.

Lemma split_char_from_snoc (c : N) (cur s name : jsstring) :
  c ∉ name ->
  split_char_from c cur (s ++ c :: name) = split_char_from c cur s ++ [name].
Proof.
  intros Hname. revert cur. induction s as [|d s IH]; intros cur; simpl.
  - by rewrite N.eqb_refl, split_char_from_plain.
  - destruct (d =? c); by rewrite IH.
Qed.

Lemma split_char_from_length (c : N) (cur s : jsstring) :
  (0 < length (split_char_from c cur s))%nat.
Proof.
  revert cur. induction s as [|d s IH]; intros cur; simpl; [lia|].
  destruct (d =? c); simpl; [lia|apply IH].
Qed.

Lemma join_char_cons (c : N) (p : jsstring) (l : list jsstring) :
  (0 < length l)%nat -> join_char c (p :: l) = p ++ c :: join_char c l.
Proof. destruct l; simpl; [lia|done]. Qed.

Lemma join_split_char_from (c : N) (cur s : jsstring) :
  join_char c (split_char_from c cur s) = rev cur ++ s.
Proof.
  revert cur. induction s as [|d s IH]; intros cur; simpl.
  - by rewrite app_nil_r.
  - destruct (d =? c) eqn:E.
    + apply N.eqb_eq in E as ->.
      rewrite join_char_cons by apply split_char_from_length.
      by rewrite IH.
    + rewrite IH. simpl. by rewrite <- app_assoc.
Qed.

Lemma last_separator (c : N) (s : jsstring) :
  c ∉ s \/ exists p name, s = p ++ c :: name /\ c ∉ name.
Proof.
  induction s as [|d s IH].
  - left. apply not_elem_of_nil.
  - destruct IH as [Hs|(p & name & -> & Hname)].
    + destruct (decide (d = c)) as [->|Hd].
      * right. by exists [], s.
      * left. apply not_elem_of_cons. split; [congruence|done].
    + right. by exists (d :: p), name.
Qed.

Lemma parentPath_plain (s : jsstring) : (47 ∉ s) -> parentPath s = [].
Proof.
  intros Hs. unfold parentPath, split_char.
  by rewrite split_char_from_plain.
Qed.

Lemma parentPath_child (p name : jsstring) :
  (47 ∉ name) -> parentPath (p ++ 47 :: name) = p.
Proof.
  intros Hname. unfold parentPath, split_char.
  rewrite split_char_from_snoc by done.
  rewrite length_app. simpl.
  replace (length (split_char_from 47 [] p) + 1 - 1)%nat
    with (length (split_char_from 47 [] p)) by lia.
  rewrite take_app_length. apply join_split_char_from.
Qed.

(** X16: joining the pieces of a split gives the text back, so
    [handleNavigateUp] removes exactly the last segment of the current path
    and the slash before it; from a path without a slash it goes to the
    root. *)
Theorem parentPath_strips_last_segment (currentPath : jsstring) :
  join_char 47 (split_char 47 currentPath) = currentPath
  /\ ((47 ∉ currentPath) /\ parentPath currentPath = []
      \/ exists name,
           (47 ∉ name)
           /\ currentPath = parentPath currentPath ++ 47 :: name).
Proof.
  split; [apply (join_split_char_from 47 [])|].
  destruct (last_separator 47 currentPath) as [Hs|(p & name & -> & Hname)].
  - left. split; [done|]. by apply parentPath_plain.
  - right. exists name. split; [done|]. by rewrite parentPath_child.
Qed.

Lemma isDirectChild_root (filePath : jsstring) :
  isDirectChild [] filePath = true <-> (47 ∉ filePath).
Proof.
  unfold isDirectChild. rewrite startsWith_nil. simpl.
  by rewrite negb_true_iff, includes_char.
Qed.

Lemma isDirectChild_folder (c : N) (path filePath : jsstring) :
  isDirectChild (c :: path) filePath = true
  <-> exists name, (47 ∉ name) /\ filePath = (c :: path) ++ 47 :: name.
Proof.
  unfold isDirectChild. set (p := c :: path).
  destruct (startsWith filePath (p ++ [47])) eqn:Hs; simpl.
  - apply startsWith_spec in Hs as [r ->].
    rewrite <- app_assoc. simpl.
    replace (length path + 1)%nat with (length (path ++ [47]))
      by (rewrite length_app; simpl; lia).
    rewrite (cons_middle 47 path r), app_assoc, drop_app_length.
    rewrite negb_true_iff, includes_char. split.
    + intros H. exists r. by rewrite <- app_assoc.
    + intros (name & H & Heq). rewrite <- app_assoc in Heq.
      injection Heq as Heq. apply app_inv_head in Heq.
      by injection Heq as ->.
  - split; [done|]. intros (name & _ & ->).
    pose proof (startsWith_app (p ++ [47]) name) as Hp.
    rewrite <- app_assoc in Hp. subst p. simpl in Hs, Hp. congruence.
Qed.

(** X17: a file is listed in a folder exactly when its path is the path
    of the folder, a slash, and a name without a slash; in the root, when
    its path has no slash. *)
Theorem isDirectChild_iff (path filePath : jsstring) :
  isDirectChild path filePath = true
  <-> exists name,
        (47 ∉ name)
        /\ filePath = match path with
                      | [] => name
                      | _ => path ++ 47 :: name
                      end.
Proof.
  destruct path as [|c path].
  - rewrite isDirectChild_root. split.
    + intros H. by exists filePath.
    + by intros (name & H & ->).
  - apply isDirectChild_folder.
Qed.

(** X18: the folder a file is listed in is the folder [handleNavigateUp]
    goes to from its path: entering a listed folder and going up comes back.
    The converse holds except in the root, which lists no path that has a
    slash. *)
Theorem isDirectChild_parentPath (path filePath : jsstring) :
  isDirectChild path filePath = true
  <-> parentPath filePath = path /\ (path = [] -> (47 ∉ filePath)).
Proof.
  destruct path as [|c path].
  - rewrite isDirectChild_root. split.
    + intros H. split; [by apply parentPath_plain|done].
    + intros [_ H]. by apply H.
  - rewrite isDirectChild_folder. split.
    + intros (name & Hname & ->). split; [by apply parentPath_child|done].
    + intros [Hparent _].
      destruct (last_separator 47 filePath) as [Hs|(p & name & -> & Hname)].
      * by rewrite parentPath_plain in Hparent.
      * rewrite parentPath_child in Hparent by done. subst p.
        by exists name.
Qed.

(** X19: the name [fetchRepoTree] gives an item is the last segment of
    its path: the path is the name, or the parent path, a slash and the
    name, and the name has no slash. A path that is empty or ends with a
    slash has no last segment, and the name is the whole path. *)
Theorem treeNode_name (itemPath itemType itemSha : jsstring) :
  let node := treeNode itemPath itemType itemSha in
  path node = itemPath
  /\ (itemPath ≠ [] -> last itemPath ≠ Some 47 ->
      (47 ∉ name node)
      /\ (itemPath = name node
          \/ itemPath = parentPath itemPath ++ 47 :: name node))
  /\ (itemPath = [] \/ last itemPath = Some 47 -> name node = itemPath).
Proof.
  unfold treeNode, split_char. cbn [path name]. split; [done|].
  destruct (last_separator 47 itemPath) as [Hs|(p & nm & -> & Hname)].
  - rewrite split_char_from_plain by done. simpl.
    split; [|by destruct itemPath].
    intros Hne _. destruct itemPath; [done|]. split; [done|by left].
  - rewrite split_char_from_snoc, last_snoc by done.
    rewrite parentPath_child by done. split.
    + intros _ Hlast. destruct nm as [|c nm].
      * by rewrite last_snoc in Hlast.
      * split; [done|by right].
    + intros [H|Hlast]; [by destruct p|]. destruct nm as [|c nm]; [done|].
      rewrite (last_app_cons p) in Hlast.
      assert (47 ∈ c :: nm); [|done].
      by apply last_Some_elem_of.
Qed.

(** *** GitHub errors and the rate-limit flag *)

Lemma includes_after (a s t : jsstring) (c : N) :
  (c ∉ a) -> includes (a ++ s) (c :: t) = includes s (c :: t).
Proof.
  induction a as [|d a IH]; [done|].
  intros [Hd Ha]%not_elem_of_cons.
  change (includes ((d :: a) ++ s) (c :: t))
    with ((c =? d) && startsWith (a ++ s) t || includes (a ++ s) (c :: t)).
  apply N.eqb_neq in Hd. by rewrite Hd, IH.
Qed.

Lemma decimal_digits (d : Decimal.uint) (c : N) :
  c ∈ lit (NilEmpty.string_of_uint d) -> 48 <= c <= 57.
Proof.
  unfold lit.
  induction d as [|d IH|d IH|d IH|d IH|d IH|d IH|d IH|d IH|d IH|d IH];
    simpl; [by intros ?%elem_of_nil|..];
    (intros [->|?]%elem_of_cons; [vm_compute; split; discriminate|by apply IH]).
Qed.

Lemma includes_failed_prefix (m : jsstring) :
  includes (lit "Failed to generate docs: " ++ m) (lit "Rate Limit")
  = includes m (lit "Rate Limit").
Proof. apply (includes_after _ m _ 82). not_in_list. Qed.

Lemma includes_default_message (status : N) (statusText : jsstring) :
  includes (lit "GitHub API Error: " ++ decimal status ++ 32 :: statusText)
    (lit "Rate Limit")
  = includes statusText (lit "Rate Limit").
Proof.
  rewrite (cons_middle 32), !app_assoc.
  apply (includes_after _ statusText _ 82).
  rewrite !not_elem_of_app. split; [split|].
  - not_in_list.
  - intros H%decimal_digits. lia.
  - not_in_list.
Qed.

Lemma isRateLimited_set_error (m : jsstring) (st : AppState) :
  isRateLimited
    (set_status ST_ERROR (set_error (lit "Failed to generate docs: " ++ m) st))
  = includes m (lit "Rate Limit").
Proof.
  rewrite <- includes_failed_prefix. unfold isRateLimited, set_status, set_error.
  cbn [errorMsg].
  destruct (lit "Failed to generate docs: " ++ m) eqn:E; [|done].
  by vm_compute in E.
Qed.

(** X20: when the fetch of a file fails, [processFile] ends in status ERROR
    with both caches as they were, and the rate-limit flag of the token
    dialog is on exactly when the message of the fetch error contains
    [Rate Limit]: the prefix the handler puts before the message never
    raises it. *)
Theorem processFile_rate_limit_flag (st : AppState) (f : FileNode)
  (message : jsstring) (api : ApiOutcome) (now : jsstring) :
  is_Some (repoInfo st) ->
  let st' := processFile st f (inl message) api now in
  isRateLimited st' = includes message (lit "Rate Limit")
  /\ status st' = ST_ERROR
  /\ docState st' = docState st
  /\ translationCache st' = translationCache st.
Proof.
  intros [r Hr]. unfold processFile. rewrite Hr.
  split; [apply isRateLimited_set_error|done].
Qed.

Lemma processFile_rate_limit_flag_witness :
  isRateLimited (processFile st_a file_a (inl rateLimitMessage)
                   (ApiThrows []) now_a) = true.
Proof.
  destruct (processFile_rate_limit_flag st_a file_a rateLimitMessage
              (ApiThrows []) now_a) as [H _].
  - by eexists.
  - rewrite H. by vm_compute.
Defined.

(** X21: a response of status 403 whose [x-ratelimit-remaining] header is
    0, or whose body has a message that contains [rate limit] once in lower
    case, makes [handleGitHubError] throw the rate-limit message, and
    [processFile] then raises the rate-limit flag. For every other status
    the flag is raised only if the status text or the message of the body
    itself contains [Rate Limit]. *)
Theorem handleGitHubError_rate_limit (lower : jsstring -> jsstring)
  (code : N) (statusText : jsstring) (remaining : option jsstring)
  (body : option value) (st : AppState) (f : FileNode) (api : ApiOutcome)
  (now : jsstring) :
  is_Some (repoInfo st) ->
  let thrown := handleGitHubError lower code statusText remaining body in
  let flagged m := isRateLimited (processFile st f (inl m) api now) in
  (code = 403 ->
   remaining = Some (lit "0")
   \/ (exists errorData c m,
         body = Some errorData
         /\ get errorData "message" = Some (VStr (c :: m))
         /\ includes (lower (c :: m)) (lit "rate limit") = true) ->
   thrown = VStr rateLimitMessage /\ flagged rateLimitMessage = true)
  /\ (forall m,
        code ≠ 403 -> thrown = VStr m -> flagged m = true ->
        includes statusText (lit "Rate Limit") = true
        \/ (exists errorData,
              body = Some errorData
              /\ get errorData "message" = Some (VStr m)
              /\ includes m (lit "Rate Limit") = true)).
Proof.
  intros [r Hr]. simpl.
  assert (forall m, isRateLimited (processFile st f (inl m) api now)
                    = includes m (lit "Rate Limit")) as Hflag.
  { intros m. unfold processFile. rewrite Hr.
    apply isRateLimited_set_error. }
  split.
  - intros -> Hcond. rewrite Hflag. split; [|by vm_compute].
    unfold handleGitHubError. rewrite N.eqb_refl. simpl andb.
    destruct Hcond as [->|(errorData & c & m & -> & Hm & Hinc)].
    + by rewrite str_eqb_refl.
    + destruct (match remaining with Some _ => _ | None => _ end); [done|].
      rewrite Hm. simpl truthy. cbv iota. by rewrite Hinc.
  - intros m Hcode Hthrown. rewrite Hflag. intros Hinc.
    unfold handleGitHubError in Hthrown.
    apply N.eqb_neq in Hcode. rewrite Hcode in Hthrown.
    cbn [andb] in Hthrown.
    assert (VStr (lit "GitHub API Error: " ++ decimal code ++ 32 :: statusText)
            = VStr m -> includes statusText (lit "Rate Limit") = true)
      as Hdefault.
    { intros Heq.
      assert (lit "GitHub API Error: " ++ decimal code ++ 32 :: statusText
              = m) as Hm by congruence.
      by rewrite <- Hm, includes_default_message in Hinc. }
    destruct body as [errorData|]; [|left; by apply Hdefault].
    destruct (get errorData "message") as [message|] eqn:Hm;
      [|left; by apply Hdefault].
    destruct (truthy message) eqn:Ht; [|left; by apply Hdefault].
    destruct message as [| | | |m'| |]; try done.
    destruct (code =? 404).
    { injection Hthrown as <-. by vm_compute in Hinc. }
    destruct (code =? 401).
    { injection Hthrown as <-. by vm_compute in Hinc. }
    injection Hthrown as ->. right. by exists errorData.
Qed.

Lemma handleGitHubError_rate_limit_witness :
  handleGitHubError lower_ascii 403 (lit "Forbidden") None
    (Some (object [("message",
                    VStr (lit "API rate limit exceeded for 1.2.3.4."))]))
  = VStr rateLimitMessage.
Proof.
  destruct (handleGitHubError_rate_limit lower_ascii 403 (lit "Forbidden")
              None
              (Some (object [("message",
                      VStr (lit "API rate limit exceeded for 1.2.3.4."))]))
              st_a file_a (ApiThrows []) now_a) as [H _].
  - by eexists.
  - apply H; [done|]. right.
    eexists _, _, _. split; [done|]. split; by vm_compute.
Defined.
